(** * The engine of snake_game.py, embedded and verified

    The module [ProfessionalSnakeGame] of [snake_game.py] keeps the snake, the
    food, the score, the speed and the game-over flag, and updates them in
    [reset_game], [generate_food], [move] and in the key handling of [run].
    This file embeds those four pieces as functions on a record of the
    attributes, and proves the properties of the engine.

    Conventions of the embedding:
    - positions are the pixel tuples of the source, pairs of [Z];
    - Python's [//] on positive operands is [Z.div];
    - [current_speed] is a binary64 float, as in Python ([10] and [24] are
      converted exactly when they meet [0.4]);
    - [random.randint] reads a tape of raw draws, one pair per iteration of
      the sampling loop; a call that has not returned when the tape is used up
      yields [Sampling];
    - drawing, the clock and the fonts are left out: they read the state and
      never write it. *)

From Stdlib Require Import ZArith List Bool Lia Floats.
Import ListNotations.
Local Open Scope Z_scope.

(** ** Outcomes of a call *)

Inductive outcome (A : Type) : Type :=
| Returned (a : A)   (* the call returned [a] *)
| Sampling           (* [while True] of generate_food still runs: tape used up *)
| IndexError         (* [self.snake[0]] on an empty list *)
| Exited.            (* [pygame.quit(); return] *)

Arguments Returned {A} a.
Arguments Sampling {A}.
Arguments IndexError {A}.
Arguments Exited {A}.

Definition bind {A B : Type} (m : outcome A) (k : A -> outcome B) : outcome B :=
  match m with
  | Returned a => k a
  | Sampling => Sampling
  | IndexError => IndexError
  | Exited => Exited
  end.

Notation "x <- m ;; k" := (bind m (fun x => k))
  (at level 61, m at next level, right associativity).
Notation "' p <- m ;; k" := (bind m (fun p => k))
  (at level 61, p pattern, m at next level, right associativity).

(** ** The two library calls the engine relies on *)

Module random.

(** [random.randint(a, b)]: an integer [N] with [a <= N <= b].  The raw draw
    [r] is folded into that range, so every tape is a possible run of the
    generator and every value of the range is some tape's answer. *)
Definition randint (a b r : Z) : Z := a + r mod (b - a + 1).

End random.

Module pygame.

Record Rect : Type := mkRect { left : Z; top : Z; width : Z; height : Z }.

(** [Rect.colliderect]: the two rectangles overlap, edges excluded; a
    rectangle without area collides with nothing. *)
Definition colliderect (a b : Rect) : bool :=
  if (width a =? 0) || (height a =? 0) || (width b =? 0) || (height b =? 0)
  then false
  else (Z.min (left a) (left a + width a) <? Z.max (left b) (left b + width b))
    && (Z.min (top a) (top a + height a) <? Z.max (top b) (top b + height b))
    && (Z.max (left a) (left a + width a) >? Z.min (left b) (left b + width b))
    && (Z.max (top a) (top a + height a) >? Z.min (top b) (top b + height b)).

End pygame.

(** ** Constants of the module *)

Definition WIDTH : Z := 800.
Definition HEIGHT : Z := 600.
Definition CELL_SIZE : Z := 28.

Definition INITIAL_SPEED : float := 10%float.
(** [0.4] is not a binary64 value; Python stores the nearest one, written
    here in hexadecimal. *)
Definition SPEED_INCREMENT : float := 0x1.999999999999ap-2%float.
Definition MAX_SPEED : float := 24%float.

Definition UP : Z * Z := (0, -1).
Definition DOWN : Z * Z := (0, 1).
Definition LEFT : Z * Z := (-1, 0).
Definition RIGHT : Z * Z := (1, 0).

(** ** The state of a game *)

Record Game : Type := mkGame {
  snake : list (Z * Z);
  direction : Z * Z;
  food : Z * Z;
  score : Z;
  game_over : bool;
  current_speed : float
}.

Definition with_game_over (g : Game) (b : bool) : Game :=
  mkGame (snake g) (direction g) (food g) (score g) b (current_speed g).

Definition with_direction (g : Game) (d : Z * Z) : Game :=
  mkGame (snake g) d (food g) (score g) (game_over g) (current_speed g).

Definition with_snake (g : Game) (s : list (Z * Z)) : Game :=
  mkGame s (direction g) (food g) (score g) (game_over g) (current_speed g).

(** Equality of two tuples of integers, and Python's [in] on a list of them. *)
Definition tuple_eqb (p q : Z * Z) : bool :=
  (fst p =? fst q) && (snd p =? snd q).

Definition contains (l : list (Z * Z)) (p : Z * Z) : bool :=
  existsb (tuple_eqb p) l.

(** Python's [min(a, b)]: [a] unless [b < a]. *)
Definition py_min (a b : float) : float :=
  if PrimFloat.ltb b a then b else a.

(** The tape of the random source: the raw draws for [x] and [y] of each
    iteration of the sampling loop. *)
Definition tape : Type := list (Z * Z).

(** ** generate_food (lines 88-100) *)

Fixpoint generate_food (t : tape) (snake : list (Z * Z)) : outcome ((Z * Z) * tape) :=
  match t with
  | [] => Sampling
  | (rx, ry) :: rest =>
      let x := random.randint 1 (WIDTH / CELL_SIZE - 2) rx * CELL_SIZE in
      let y := random.randint 1 (HEIGHT / CELL_SIZE - 2) ry * CELL_SIZE in
      let food_pos := (x, y) in
      if negb (contains snake food_pos) then Returned (food_pos, rest)
      else generate_food rest snake
  end.

(** ** reset_game (lines 77-86) *)

Definition reset_game (t : tape) : outcome (Game * tape) :=
  let start_x := (WIDTH / 2) / CELL_SIZE * CELL_SIZE in
  let start_y := (HEIGHT / 2) / CELL_SIZE * CELL_SIZE in
  let snake0 := [(start_x, start_y)] in
  '(food0, rest) <- generate_food t snake0 ;;
  Returned (mkGame snake0 RIGHT food0 0 false INITIAL_SPEED, rest).

(** ** move (lines 102-144) *)

Definition new_head_of (head d : Z * Z) : Z * Z :=
  let '(dx, dy) := d in
  (fst head + dx * CELL_SIZE, snd head + dy * CELL_SIZE).

Definition out_of_bounds (p : Z * Z) : bool :=
  (fst p <? 0) || (fst p >=? WIDTH) || (snd p <? 0) || (snd p >=? HEIGHT).

Definition cell_rect (p : Z * Z) : pygame.Rect :=
  pygame.mkRect (fst p) (snd p) CELL_SIZE CELL_SIZE.

Definition move (t : tape) (g : Game) : outcome (Game * tape) :=
  if game_over g then Returned (g, t)
  else
    match snake g with
    | [] => IndexError
    | head :: _ =>
        let new_head := new_head_of head (direction g) in
        if out_of_bounds new_head then Returned (with_game_over g true, t)
        else if contains (snake g) new_head then Returned (with_game_over g true, t)
        else
          let head_rect := cell_rect new_head in
          let food_rect := cell_rect (food g) in
          let snake1 := new_head :: snake g in
          if pygame.colliderect head_rect food_rect then
            let score1 := score g + 1 in
            let speed1 := py_min (PrimFloat.add (current_speed g) SPEED_INCREMENT) MAX_SPEED in
            '(food1, rest) <- generate_food t snake1 ;;
            Returned (mkGame snake1 (direction g) food1 score1 (game_over g) speed1, rest)
          else
            Returned (with_snake g (removelast snake1), t)
    end.

(** ** The event handling of run (lines 264-292) *)

Inductive key : Type := K_UP | K_DOWN | K_LEFT | K_RIGHT | K_SPACE | K_q | K_other.

Inductive event : Type := QUIT | KEYDOWN (k : key) | OTHER.

(** Lines 280-288: an arrow key replaces [self.direction] unless the game is
    over or [self.direction] is the opposite arrow. *)
Definition steer (g : Game) (k : key) : Game :=
  if negb (game_over g) then
    match k with
    | K_UP => if negb (tuple_eqb (direction g) DOWN) then with_direction g UP else g
    | K_DOWN => if negb (tuple_eqb (direction g) UP) then with_direction g DOWN else g
    | K_LEFT => if negb (tuple_eqb (direction g) RIGHT) then with_direction g LEFT else g
    | K_RIGHT => if negb (tuple_eqb (direction g) LEFT) then with_direction g RIGHT else g
    | _ => g
    end
  else g.

(** Lines 270-288: one KEYDOWN event. *)
Definition keydown (t : tape) (g : Game) (k : key) : outcome (Game * tape) :=
  match k with
  | K_q => Exited
  | K_SPACE =>
      '(g1, rest) <- (if game_over g then reset_game t else Returned (g, t)) ;;
      Returned (steer g1 k, rest)
  | _ => Returned (steer g k, t)
  end.

(** Lines 265-288: the events of one frame, in order. *)
Fixpoint handle_events (evs : list event) (t : tape) (g : Game) : outcome (Game * tape) :=
  match evs with
  | [] => Returned (g, t)
  | QUIT :: _ => Exited
  | KEYDOWN k :: evs' => '(g1, rest) <- keydown t g k ;; handle_events evs' rest g1
  | OTHER :: evs' => handle_events evs' t g
  end.

(** Lines 264-292: one iteration of the main loop. *)
Definition frame (evs : list event) (t : tape) (g : Game) : outcome (Game * tape) :=
  '(g1, rest) <- handle_events evs t g ;; move rest g1.

(** The [while True] of run, for as many frames as there are event lists. *)
Fixpoint frames (script : list (list event)) (t : tape) (g : Game) : outcome (Game * tape) :=
  match script with
  | [] => Returned (g, t)
  | evs :: script' => '(g1, rest) <- frame evs t g ;; frames script' rest g1
  end.

(** ** Reachable states

    A game starts with [reset_game] (from [__init__], or from SPACE after a
    game over); afterwards keys are handled and [move] is called. *)

Inductive reachable : Game -> Prop :=
| reach_reset t g rest :
    reset_game t = Returned (g, rest) -> reachable g
| reach_key g k t g' rest :
    reachable g -> keydown t g k = Returned (g', rest) -> reachable g'
| reach_move g t g' rest :
    reachable g -> move t g = Returned (g', rest) -> reachable g'.

(** ** Vocabulary of the properties *)

(** The cell grid: [W] columns and [H] rows of [CELL_SIZE] pixels. *)
Definition W : Z := WIDTH / CELL_SIZE.
Definition H : Z := HEIGHT / CELL_SIZE.

Definition cell_of (p : Z * Z) : Z * Z := (fst p / CELL_SIZE, snd p / CELL_SIZE).

Definition inside_grid (p : Z * Z) : Prop :=
  (0 <= fst (cell_of p) < W) /\ (0 <= snd (cell_of p) < H).

(** Cells past the last pixel of the screen, or before its first. *)
Definition beyond_screen (p : Z * Z) : Prop :=
  fst (cell_of p) < 0 \/ W < fst (cell_of p) \/ snd (cell_of p) < 0 \/ H < snd (cell_of p).

Definition multiple_of_cell (v : Z) : Prop := exists k, 0 <= k /\ v = k * CELL_SIZE.

Definition aligned (p : Z * Z) : Prop :=
  multiple_of_cell (fst p) /\ multiple_of_cell (snd p).

Definition grid_aligned (g : Game) : Prop :=
  Forall aligned (snake g) /\ aligned (food g).

Definition is_arrow (d : Z * Z) : Prop := d = UP \/ d = DOWN \/ d = LEFT \/ d = RIGHT.

(** The position [move] tries: the head moved one cell along [direction]. *)
Definition new_head (g : Game) : Z * Z :=
  new_head_of (hd (0, 0) (snake g)) (direction g).

(** The two collisions of [move]. *)
Definition collides (g : Game) : bool :=
  out_of_bounds (new_head g) || contains (snake g) (new_head g).

(** A call of [move] eats when the game runs, nothing is hit and the new
    head is the food. *)
Definition eats (g : Game) : bool :=
  negb (game_over g) && negb (collides g) && tuple_eqb (new_head g) (food g).

(** The candidate one pair of draws stands for in [generate_food]. *)
Definition candidate (d : Z * Z) : Z * Z :=
  (random.randint 1 (WIDTH / CELL_SIZE - 2) (fst d) * CELL_SIZE,
   random.randint 1 (HEIGHT / CELL_SIZE - 2) (snd d) * CELL_SIZE).

(** The speed after one more food. *)
Definition faster (s : float) : float :=
  py_min (PrimFloat.add s SPEED_INCREMENT) MAX_SPEED.

Fixpoint speeds_from (n : nat) (s : float) : list float :=
  match n with
  | O => [s]
  | S k => s :: speeds_from k (faster s)
  end.

(** Every speed a game can have: [INITIAL_SPEED] and what 36 foods make of
    it; the last one is [MAX_SPEED]. *)
Definition speed_levels : list float := Eval vm_compute in speeds_from 36 INITIAL_SPEED.

(** The speed after [n] foods. *)
Definition speed_level (n : nat) : float := nth n speed_levels MAX_SPEED.

(** Calls of [move] and arrow keys, with no [reset_game] between them. *)
Inductive plays : Game -> Game -> Prop :=
| plays_done g : plays g g
| plays_move g t g1 rest g2 :
    move t g = Returned (g1, rest) -> plays g1 g2 -> plays g g2
| plays_steer g k g2 :
    plays (steer g k) g2 -> plays g g2.

(** What holds of every reachable state. *)
Record invariant (g : Game) : Prop := {
  inv_snake : snake g <> [];
  inv_aligned : grid_aligned g;
  inv_food : ~ In (food g) (snake g);
  inv_arrow : is_arrow (direction g);
  inv_speed : exists n : nat, current_speed g = speed_level n;
  inv_score : 0 <= score g
}.

(** ** Sample states *)

(** A game right after [reset_game], the food four cells ahead. *)
Definition fresh : Game :=
  mkGame [(392, 280)] RIGHT (504, 280) 0 false INITIAL_SPEED.

(** The head in the last full column, heading right. *)
Definition at_right_edge : Game :=
  mkGame [(756, 280)] RIGHT (28, 28) 0 false INITIAL_SPEED.

(** The head in column 28, which starts at pixel 784. *)
Definition past_right_edge : Game :=
  mkGame [(784, 280)] RIGHT (28, 28) 0 false INITIAL_SPEED.

(** A snake of five cells curled so that a left turn hits its own body. *)
Definition curled : Game :=
  mkGame [(392, 280); (392, 308); (364, 308); (364, 280); (364, 252)]
         LEFT (28, 28) 4 false (speed_level 4).

(** A snake of four cells in a square, its new head on its own tail. *)
Definition chasing_tail : Game :=
  mkGame [(392, 280); (392, 308); (364, 308); (364, 280)]
         LEFT (28, 28) 3 false (speed_level 3).

(** The head in column 0, heading left. *)
Definition at_left_wall : Game :=
  mkGame [(0, 280)] LEFT (28, 28) 0 false INITIAL_SPEED.

(** A snake of two cells heading right, after its first food. *)
Definition two_cells : Game :=
  mkGame [(420, 280); (392, 280)] RIGHT (28, 28) 1 false (faster INITIAL_SPEED).

(** A game that ended at the left wall. *)
Definition crashed : Game :=
  mkGame [(0, 280)] LEFT (28, 28) 0 true INITIAL_SPEED.

(** The head one cell before the food. *)
Definition before_food : Game :=
  mkGame [(392, 280)] RIGHT (420, 280) 0 false INITIAL_SPEED.

(** Every cell [generate_food] can sample: columns 1 to 26, rows 1 to 19. *)
Definition sampled_cells : list (Z * Z) :=
  flat_map (fun c => map (fun r => (c * CELL_SIZE, r * CELL_SIZE))
                         (map Z.of_nat (seq 1 19)))
           (map Z.of_nat (seq 1 26)).

(** ** The rest of the module: the grid that is drawn, the clock *)

(** Python's [range(start, stop, step)] for a positive [step], the only
    kind this module uses. *)
Definition py_range (start stop step : Z) : list Z :=
  map (fun i => start + Z.of_nat i * step)
      (seq 0 (Z.to_nat ((stop - start + step - 1) / step))).

(** Python's [int(x)] on a float: the fraction is dropped; [None] is the
    error Python raises on an infinity or a NaN. *)
Definition py_int (f : float) : option Z :=
  match Prim2SF f with
  | S754_zero _ => Some 0
  | S754_finite s m e =>
      let v := if 0 <=? e then Z.pos m * 2 ^ e else Z.pos m / 2 ^ (- e) in
      Some (if s then - v else v)
  | _ => None
  end.

(** What [draw_grid] asks of [pygame.draw.line]: a colour and two points. *)
Inductive drawing : Type :=
| Line (color : Z * Z * Z) (start_pos end_pos : Z * Z).

Definition COLORS_grid : Z * Z * Z := (30, 30, 30).

(** draw_grid (lines 220-225), as the list of lines it draws, in order. *)
Definition draw_grid : list drawing :=
  map (fun x => Line COLORS_grid (x, 0) (x, HEIGHT)) (py_range 0 WIDTH CELL_SIZE)
  ++ map (fun y => Line COLORS_grid (0, y) (WIDTH, y)) (py_range 0 HEIGHT CELL_SIZE).

(** Line 292: the frame rate [run] hands to [self.clock.tick]. *)
Definition tick_rate (g : Game) : option Z := py_int (current_speed g).

(** ** The shape of the snake *)

Definition on_screen (p : Z * Z) : Prop :=
  (0 <= fst p < WIDTH) /\ (0 <= snd p < HEIGHT).

(** Two positions one cell apart, along a row or along a column. *)
Definition neighbours (p q : Z * Z) : Prop :=
  (fst p = fst q /\ Z.abs (snd p - snd q) = CELL_SIZE)
  \/ (snd p = snd q /\ Z.abs (fst p - fst q) = CELL_SIZE).

Fixpoint connected (l : list (Z * Z)) : Prop :=
  match l with
  | p :: rest =>
      match rest with
      | q :: _ => neighbours p q /\ connected rest
      | [] => True
      end
  | [] => True
  end.

(** The cells [generate_food] samples: one cell away from the border of the
    grid of [W] x [H] cells. *)
Definition in_margin (p : Z * Z) : Prop :=
  (1 <= fst (cell_of p) <= W - 2) /\ (1 <= snd (cell_of p) <= H - 2).

(** More of what holds in every reachable state. *)
Record shape (g : Game) : Prop := {
  shp_screen : Forall on_screen (snake g);
  shp_nodup : NoDup (snake g);
  shp_chain : connected (snake g);
  shp_length : Z.of_nat (length (snake g)) = score g + 1;
  shp_speed : current_speed g = speed_level (Z.to_nat (score g));
  shp_food : in_margin (food g)
}.

(** No position occurs twice in the list. *)
Fixpoint distinct (l : list (Z * Z)) : bool :=
  match l with
  | [] => true
  | p :: rest => negb (contains rest p) && distinct rest
  end.

(** Every cell whose corner is on the screen: columns 0 to 28, rows 0 to 21. *)
Definition screen_cells : list (Z * Z) :=
  flat_map (fun c => map (fun r => (c * CELL_SIZE, r * CELL_SIZE))
                         (map Z.of_nat (seq 0 22)))
           (map Z.of_nat (seq 0 29)).

(** The events that end [run]. *)
Definition is_quit (e : event) : bool :=
  match e with
  | QUIT => true
  | KEYDOWN K_q => true
  | _ => false
  end.

(** * Properties *)

(** ** Tuples and membership *)

Lemma tuple_eqb_eq (p q : Z * Z) : tuple_eqb p q = true <-> p = q.
Proof.
  destruct p as [a b], q as [c d]; unfold tuple_eqb; simpl.
  rewrite andb_true_iff, !Z.eqb_eq.
  split; [intros [-> ->]; reflexivity | intros E; inversion E; auto].
Qed.

Lemma tuple_eqb_neq (p q : Z * Z) : tuple_eqb p q = false <-> p <> q.
Proof.
  rewrite <- tuple_eqb_eq. destruct (tuple_eqb p q); intuition congruence.
Qed.

Lemma contains_In (l : list (Z * Z)) (p : Z * Z) : contains l p = true <-> In p l.
Proof.
  unfold contains. rewrite existsb_exists. split.
  - intros [q [Hq E]]. apply tuple_eqb_eq in E. subst q. exact Hq.
  - intros Hp. exists p. split; [exact Hp | apply tuple_eqb_eq; reflexivity].
Qed.

Lemma contains_not_In (l : list (Z * Z)) (p : Z * Z) : contains l p = false <-> ~ In p l.
Proof.
  rewrite <- contains_In. destruct (contains l p); intuition congruence.
Qed.

(** ** The library calls *)

Lemma randint_range (a b r : Z) : a <= b -> a <= random.randint a b r <= b.
Proof.
  intros Hab. unfold random.randint.
  assert (0 <= r mod (b - a + 1) < b - a + 1) by (apply Z.mod_pos_bound; lia).
  lia.
Qed.

Lemma colliderect_cells (p q : Z * Z) :
  aligned p -> aligned q ->
  (pygame.colliderect (cell_rect p) (cell_rect q) = true <-> p = q).
Proof.
  destruct p as [px py], q as [qx qy].
  intros [[a [Ha Ea]] [b [Hb Eb]]] [[c [Hc Ec]] [d [Hd Ed]]].
  simpl in Ea, Eb, Ec, Ed. subst px py qx qy.
  unfold pygame.colliderect, cell_rect, CELL_SIZE; simpl.
  rewrite !andb_true_iff, !Z.gtb_ltb, !Z.ltb_lt.
  split.
  - intros [[[H1 H2] H3] H4]. f_equal; lia.
  - intros E. inversion E. lia.
Qed.

Lemma candidate_aligned (d : Z * Z) : aligned (candidate d).
Proof.
  assert (Hx := randint_range 1 (WIDTH / CELL_SIZE - 2) (fst d) ltac:(discriminate)).
  assert (Hy := randint_range 1 (HEIGHT / CELL_SIZE - 2) (snd d) ltac:(discriminate)).
  split.
  - exists (random.randint 1 (WIDTH / CELL_SIZE - 2) (fst d)). split; [lia | reflexivity].
  - exists (random.randint 1 (HEIGHT / CELL_SIZE - 2) (snd d)). split; [lia | reflexivity].
Qed.

Lemma candidate_margin (d : Z * Z) :
  1 <= fst (cell_of (candidate d)) <= W - 2 /\ 1 <= snd (cell_of (candidate d)) <= H - 2.
Proof.
  assert (Hx := randint_range 1 (WIDTH / CELL_SIZE - 2) (fst d) ltac:(discriminate)).
  assert (Hy := randint_range 1 (HEIGHT / CELL_SIZE - 2) (snd d) ltac:(discriminate)).
  unfold candidate, cell_of. cbn [fst snd].
  rewrite !Z.div_mul by discriminate.
  exact (conj Hx Hy).
Qed.

(** ** generate_food *)

Lemma generate_food_step (d : Z * Z) (t : tape) (s : list (Z * Z)) :
  generate_food (d :: t) s =
  if contains s (candidate d) then generate_food t s else Returned (candidate d, t).
Proof.
  destruct d as [rx ry]. simpl. unfold candidate; simpl.
  destruct (contains s _); reflexivity.
Qed.

Lemma generate_food_returned (t : tape) (s : list (Z * Z)) (f : Z * Z) (rest : tape) :
  generate_food t s = Returned (f, rest) <->
  exists pre d, t = pre ++ d :: rest /\ Forall (fun e => In (candidate e) s) pre
                /\ ~ In (candidate d) s /\ f = candidate d.
Proof.
  revert f rest. induction t as [| d t IH]; intros f rest.
  - simpl. split; [discriminate |].
    intros [pre [d [E _]]]. destruct pre; discriminate.
  - rewrite generate_food_step. destruct (contains s (candidate d)) eqn:C.
    + apply contains_In in C. rewrite IH. split.
      * intros [pre [e [E [Hpre [He Hf]]]]].
        exists (d :: pre), e. subst t. repeat split; auto.
      * intros [pre [e [E [Hpre [He Hf]]]]].
        destruct pre as [| d' pre]; simpl in E; inversion E; subst.
        -- contradiction.
        -- inversion Hpre; subst. exists pre, e. repeat split; auto.
    + apply contains_not_In in C. split.
      * intros E. inversion E; subst. exists [], d. repeat split; auto.
      * intros [pre [e [E [Hpre [He Hf]]]]].
        destruct pre as [| d' pre]; simpl in E; inversion E; subst.
        -- reflexivity.
        -- inversion Hpre; subst. contradiction.
Qed.

Lemma generate_food_sampling (t : tape) (s : list (Z * Z)) :
  generate_food t s = Sampling <-> Forall (fun e => In (candidate e) s) t.
Proof.
  induction t as [| d t IH].
  - simpl. split; auto.
  - rewrite generate_food_step. destruct (contains s (candidate d)) eqn:C.
    + apply contains_In in C. rewrite IH. split.
      * intros Ht. constructor; assumption.
      * intros Ht. inversion Ht; assumption.
    + apply contains_not_In in C. split; [discriminate |].
      intros Ht. inversion Ht; subst. contradiction.
Qed.

Lemma generate_food_outcomes (t : tape) (s : list (Z * Z)) :
  generate_food t s <> IndexError /\ generate_food t s <> Exited.
Proof.
  induction t as [| d t IH].
  - simpl. split; discriminate.
  - rewrite generate_food_step. destruct (contains s (candidate d)).
    + exact IH.
    + split; discriminate.
Qed.

Lemma generate_food_free (t : tape) (s : list (Z * Z)) (f : Z * Z) (rest : tape) :
  generate_food t s = Returned (f, rest) -> ~ In f s /\ aligned f.
Proof.
  intros E. apply generate_food_returned in E.
  destruct E as [pre [d [_ [_ [Hd ->]]]]].
  split; [exact Hd | apply candidate_aligned].
Qed.

(** ** The speed levels *)

Lemma speed_level_faster (n : nat) : faster (speed_level n) = speed_level (S n).
Proof.
  destruct (Nat.lt_ge_cases n 37) as [Hlt | Hge].
  - assert (Hin : In n (seq 0 37)) by (apply in_seq; lia).
    clear Hlt. rename Hin into Hlt. simpl in Hlt.
    repeat (destruct Hlt as [<- | Hlt]; [reflexivity |]). contradiction.
  - unfold speed_level.
    rewrite (nth_overflow speed_levels MAX_SPEED (n := n)) by (simpl; lia).
    rewrite (nth_overflow speed_levels MAX_SPEED (n := S n)) by (simpl; lia).
    reflexivity.
Qed.

Lemma speed_level_cap (n : nat) : speed_level n = speed_level (Nat.min n 36).
Proof.
  destruct (Nat.le_gt_cases n 36) as [Hle | Hgt].
  - rewrite Nat.min_l by exact Hle. reflexivity.
  - rewrite Nat.min_r by lia. unfold speed_level.
    rewrite (nth_overflow speed_levels MAX_SPEED (n := n)) by (simpl; lia).
    reflexivity.
Qed.

Lemma speed_level_table :
  forallb (fun i => forallb (fun j => (j <? i)%nat
                                     || PrimFloat.leb (speed_level i) (speed_level j))
                            (seq 0 37))
          (seq 0 37) = true.
Proof. vm_compute. reflexivity. Qed.

Lemma speed_level_mono (i j : nat) :
  (i <= j)%nat -> PrimFloat.leb (speed_level i) (speed_level j) = true.
Proof.
  intros Hij. rewrite (speed_level_cap i), (speed_level_cap j).
  pose proof speed_level_table as T.
  rewrite forallb_forall in T.
  specialize (T (Nat.min i 36)). rewrite forallb_forall in T.
  specialize (T ltac:(apply in_seq; lia) (Nat.min j 36) ltac:(apply in_seq; lia)).
  apply orb_true_iff in T. destruct T as [T | T]; [| exact T].
  apply Nat.ltb_lt in T. lia.
Qed.

Lemma speed_level_bounds (n : nat) :
  PrimFloat.leb INITIAL_SPEED (speed_level n) = true
  /\ PrimFloat.leb (speed_level n) MAX_SPEED = true.
Proof.
  split.
  - apply (speed_level_mono 0 n). lia.
  - rewrite (speed_level_cap n). apply (speed_level_mono (Nat.min n 36) 36). lia.
Qed.

(** [MAX_SPEED] is the speed after 36 foods, and not before. *)
Lemma speed_level_max :
  speed_level 36 = MAX_SPEED /\ PrimFloat.ltb (speed_level 35) MAX_SPEED = true.
Proof. split; reflexivity. Qed.

Lemma speed_levels_unfold : speed_levels = speeds_from 36 INITIAL_SPEED.
Proof. reflexivity. Qed.

(** ** move, case by case *)

Lemma move_over (t : tape) (g : Game) :
  game_over g = true -> move t g = Returned (g, t).
Proof. intros E. unfold move. rewrite E. reflexivity. Qed.

Lemma move_running (t : tape) (g : Game) :
  game_over g = false -> snake g <> [] ->
  move t g =
  if collides g then Returned (with_game_over g true, t)
  else if pygame.colliderect (cell_rect (new_head g)) (cell_rect (food g)) then
    '(food1, rest) <- generate_food t (new_head g :: snake g) ;;
    Returned (mkGame (new_head g :: snake g) (direction g) food1 (score g + 1)
                     false (faster (current_speed g)), rest)
  else Returned (with_snake g (removelast (new_head g :: snake g)), t).
Proof.
  intros E Hs. unfold move, collides, new_head. rewrite E.
  destruct (snake g) as [| head body] eqn:S; [contradiction |].
  cbn [hd].
  destruct (out_of_bounds _); [reflexivity |].
  cbn [orb].
  destruct (contains _ _); reflexivity.
Qed.

Lemma out_of_bounds_false (p : Z * Z) :
  out_of_bounds p = false <-> (0 <= fst p < WIDTH /\ 0 <= snd p < HEIGHT).
Proof.
  unfold out_of_bounds. rewrite !orb_false_iff, !Z.ltb_ge, !Z.geb_leb, !Z.leb_gt. lia.
Qed.

Lemma collides_false (g : Game) :
  collides g = false <-> (out_of_bounds (new_head g) = false /\ ~ In (new_head g) (snake g)).
Proof.
  unfold collides. rewrite orb_false_iff, contains_not_In. reflexivity.
Qed.

Lemma inside_grid_in_bounds (p : Z * Z) : inside_grid p -> out_of_bounds p = false.
Proof.
  unfold inside_grid, cell_of; cbn [fst snd]. change W with 28. change H with 21.
  intros [[Hc1 Hc2] [Hr1 Hr2]]. apply out_of_bounds_false.
  unfold WIDTH, HEIGHT, CELL_SIZE in *.
  pose proof (Z.mul_div_le (fst p) 28 ltac:(lia)).
  pose proof (Z.mul_div_le (snd p) 28 ltac:(lia)).
  pose proof (Z.mod_pos_bound (fst p) 28 ltac:(lia)).
  pose proof (Z.mod_pos_bound (snd p) 28 ltac:(lia)).
  pose proof (Z.div_mod (fst p) 28 ltac:(lia)).
  pose proof (Z.div_mod (snd p) 28 ltac:(lia)).
  lia.
Qed.

Lemma beyond_screen_out_of_bounds (p : Z * Z) : beyond_screen p -> out_of_bounds p = true.
Proof.
  unfold beyond_screen, cell_of; cbn [fst snd]. change W with 28. change H with 21.
  intros Hb. destruct (out_of_bounds p) eqn:E; [reflexivity | exfalso].
  apply out_of_bounds_false in E.
  unfold WIDTH, HEIGHT, CELL_SIZE in *.
  pose proof (Z.mod_pos_bound (fst p) 28 ltac:(lia)).
  pose proof (Z.mod_pos_bound (snd p) 28 ltac:(lia)).
  pose proof (Z.div_mod (fst p) 28 ltac:(lia)).
  pose proof (Z.div_mod (snd p) 28 ltac:(lia)).
  lia.
Qed.

(** ** Lists: what [pop] leaves *)

Lemma removelast_In (A : Type) (x : A) (l : list A) : In x (removelast l) -> In x l.
Proof.
  induction l as [| a l IH]; simpl; [auto |].
  destruct l as [| b l]; [contradiction |].
  intros [E | Hx]; [left; exact E | right; apply IH; exact Hx].
Qed.

Lemma removelast_cons_length (A : Type) (x : A) (l : list A) :
  length (removelast (x :: l)) = length l.
Proof.
  revert x. induction l as [| a l IH]; intros x; [reflexivity |].
  change (removelast (x :: a :: l)) with (x :: removelast (a :: l)).
  cbn [length]. f_equal. apply IH.
Qed.

Lemma removelast_cons_nonempty (A : Type) (x : A) (l : list A) :
  l <> [] -> removelast (x :: l) <> [].
Proof. destruct l; [contradiction | discriminate]. Qed.

Lemma last_is_member (A : Type) (d : A) (l : list A) : l <> [] -> In (last l d) l.
Proof.
  induction l as [| a l IH]; [contradiction | intros _].
  destruct l as [| b l]; [left; reflexivity |].
  right. apply IH. discriminate.
Qed.

(** ** The invariant *)

Lemma new_head_aligned (g : Game) :
  invariant g -> out_of_bounds (new_head g) = false -> aligned (new_head g).
Proof.
  intros I Hb. apply out_of_bounds_false in Hb.
  destruct I as [Hs [Ha _] _ Hd _ _].
  unfold new_head in *. destruct (snake g) as [| [hx hy] body]; [contradiction |].
  inversion Ha as [| ? ? [[a [Ha0 Ea]] [b [Hb0 Eb]]] _]; subst.
  cbn [hd fst snd] in *. subst hx hy.
  unfold WIDTH, HEIGHT in Hb.
  destruct Hd as [E | [E | [E | E]]]; rewrite E in *;
    unfold new_head_of, UP, DOWN, LEFT, RIGHT, aligned, multiple_of_cell in *;
    cbn [fst snd] in *; unfold CELL_SIZE in *; split.
  all: first [ exists a; split; lia | exists b; split; lia
             | exists (a - 1); split; lia | exists (a + 1); split; lia
             | exists (b - 1); split; lia | exists (b + 1); split; lia ].
Qed.

Lemma overlap_is_equality (g : Game) :
  invariant g -> out_of_bounds (new_head g) = false ->
  pygame.colliderect (cell_rect (new_head g)) (cell_rect (food g)) = tuple_eqb (new_head g) (food g).
Proof.
  intros I Hb.
  pose proof (colliderect_cells (new_head g) (food g) (new_head_aligned g I Hb)
                (proj2 (inv_aligned g I))) as C.
  pose proof (tuple_eqb_eq (new_head g) (food g)) as T.
  destruct (pygame.colliderect _ _), (tuple_eqb _ _); intuition congruence.
Qed.

Lemma reset_game_returned (t : tape) (g : Game) (rest : tape) :
  reset_game t = Returned (g, rest) ->
  snake g = [(392, 280)] /\ direction g = RIGHT /\ score g = 0
  /\ game_over g = false /\ current_speed g = INITIAL_SPEED
  /\ generate_food t [(392, 280)] = Returned (food g, rest).
Proof.
  unfold reset_game.
  change ((WIDTH / 2) / CELL_SIZE * CELL_SIZE) with 392.
  change ((HEIGHT / 2) / CELL_SIZE * CELL_SIZE) with 280.
  destruct (generate_food t [(392, 280)]) as [[f r] | | |]; cbn [bind]; try discriminate.
  intros E. inversion E; subst. cbn. repeat split; reflexivity.
Qed.

Lemma reset_game_invariant (t : tape) (g : Game) (rest : tape) :
  reset_game t = Returned (g, rest) -> invariant g.
Proof.
  intros E. apply reset_game_returned in E.
  destruct E as [Hs [Hd [Hsc [_ [Hsp Hf]]]]].
  apply generate_food_free in Hf. destruct Hf as [Hfree Hal].
  constructor.
  - rewrite Hs. discriminate.
  - split; [| exact Hal]. rewrite Hs. constructor; [| constructor].
    split; [exists 14 | exists 10]; split; (lia || reflexivity).
  - rewrite Hs. exact Hfree.
  - rewrite Hd. right; right; right; reflexivity.
  - exists 0%nat. rewrite Hsp. reflexivity.
  - rewrite Hsc. lia.
Qed.

Lemma steer_keeps (g : Game) (k : key) :
  snake (steer g k) = snake g /\ food (steer g k) = food g /\ score (steer g k) = score g
  /\ game_over (steer g k) = game_over g /\ current_speed (steer g k) = current_speed g
  /\ (is_arrow (direction g) -> is_arrow (direction (steer g k))).
Proof.
  unfold steer, is_arrow.
  destruct (game_over g) eqn:Over; cbn [negb]; [rewrite Over; tauto |].
  destruct k; try (rewrite Over; tauto);
    match goal with |- context [tuple_eqb ?a ?b] => destruct (tuple_eqb a b) end;
    cbn [negb with_direction snake food score game_over current_speed direction];
    rewrite ?Over; repeat split; auto 6.
Qed.

Lemma steer_invariant (g : Game) (k : key) : invariant g -> invariant (steer g k).
Proof.
  intros [Hs [Ha Hf] Hfree Hd Hsp Hsc].
  destruct (steer_keeps g k) as [Es [Ef [Esc [_ [Esp Hdir]]]]].
  constructor; unfold grid_aligned; rewrite ?Es, ?Ef, ?Esc, ?Esp; auto.
Qed.

Lemma keydown_invariant (t : tape) (g : Game) (k : key) (g' : Game) (rest : tape) :
  invariant g -> keydown t g k = Returned (g', rest) -> invariant g'.
Proof.
  intros I. unfold keydown.
  destruct k; try (intros E; inversion E; subst; apply steer_invariant; exact I);
    try discriminate.
  destruct (game_over g).
  - destruct (reset_game t) as [[g1 r1] | | |] eqn:R; cbn [bind]; try discriminate.
    intros E; inversion E; subst. apply steer_invariant.
    exact (reset_game_invariant _ _ _ R).
  - cbn [bind]. intros E; inversion E; subst. apply steer_invariant. exact I.
Qed.

Lemma move_invariant (t : tape) (g : Game) (g' : Game) (rest : tape) :
  invariant g -> move t g = Returned (g', rest) -> invariant g'.
Proof.
  intros I. destruct (game_over g) eqn:Over.
  - rewrite move_over by exact Over. intros E; inversion E; subst. exact I.
  - rewrite move_running by (exact Over || exact (inv_snake g I)).
    destruct (collides g) eqn:C.
    + intros E; inversion E; subst. destruct I. constructor; assumption.
    + apply collides_false in C. destruct C as [Hb Hnot].
      rewrite (overlap_is_equality g I Hb).
      pose proof (new_head_aligned g I Hb) as Hnh.
      destruct I as [Hs [Ha Hf] Hfree Hd [n Hsp] Hsc].
      destruct (tuple_eqb (new_head g) (food g)) eqn:Eat.
      * destruct (generate_food t (new_head g :: snake g)) as [[f r] | | |] eqn:G;
          cbn [bind]; try discriminate.
        intros E; inversion E; subst. apply generate_food_free in G.
        destruct G as [Gfree Gal].
        constructor; cbn; auto.
        -- discriminate.
        -- split; [constructor; assumption | exact Gal].
        -- exists (S n). rewrite Hsp. apply speed_level_faster.
        -- lia.
      * intros E; inversion E; subst. apply tuple_eqb_neq in Eat.
        constructor; unfold grid_aligned;
          cbn [with_snake snake food direction score game_over current_speed]; auto.
        -- apply (removelast_cons_nonempty _ (new_head g) (snake g)). exact Hs.
        -- split; [| exact Hf]. apply Forall_forall. intros x Hx.
           apply (removelast_In _ x (new_head g :: snake g)) in Hx.
           destruct Hx as [<- | Hx]; [exact Hnh |].
           rewrite Forall_forall in Ha. apply Ha. exact Hx.
        -- intros Hin. apply (removelast_In _ _ (new_head g :: snake g)) in Hin.
           destruct Hin as [E' | Hin]; [apply Eat; exact E' | apply Hfree; exact Hin].
        -- exists n. exact Hsp.
Qed.

Lemma reachable_invariant (g : Game) : reachable g -> invariant g.
Proof.
  induction 1 as [t g rest R | g k t g' rest _ IH K | g t g' rest _ IH M].
  - exact (reset_game_invariant _ _ _ R).
  - exact (keydown_invariant _ _ _ _ _ IH K).
  - exact (move_invariant _ _ _ _ IH M).
Qed.

(** ** What a returned [move] did *)

Lemma eats_running (g : Game) :
  eats g = true <->
  (game_over g = false /\ collides g = false /\ new_head g = food g).
Proof.
  unfold eats. rewrite !andb_true_iff, !negb_true_iff, tuple_eqb_eq. tauto.
Qed.

Lemma move_cases (t : tape) (g g' : Game) (rest : tape) :
  invariant g -> move t g = Returned (g', rest) ->
  if game_over g then g' = g /\ rest = t
  else if collides g then g' = with_game_over g true /\ rest = t
  else if tuple_eqb (new_head g) (food g) then
    exists f, generate_food t (new_head g :: snake g) = Returned (f, rest)
              /\ g' = mkGame (new_head g :: snake g) (direction g) f (score g + 1)
                             false (faster (current_speed g))
  else g' = with_snake g (removelast (new_head g :: snake g)) /\ rest = t.
Proof.
  intros I. destruct (game_over g) eqn:Over.
  - rewrite move_over by exact Over. intros E; inversion E; auto.
  - rewrite move_running by (exact Over || exact (inv_snake g I)).
    destruct (collides g) eqn:C.
    + intros E; inversion E; auto.
    + rewrite (overlap_is_equality g I (proj1 (proj1 (collides_false g) C))).
      destruct (tuple_eqb (new_head g) (food g)).
      * destruct (generate_food t (new_head g :: snake g)) as [[f r] | | |];
          cbn [bind]; try discriminate.
        intros E; inversion E; subst. exists f. auto.
      * intros E; inversion E; auto.
Qed.

Lemma move_returns_unless_eating (t : tape) (g : Game) :
  invariant g -> eats g = false -> exists g', move t g = Returned (g', t).
Proof.
  intros I Hne. destruct (game_over g) eqn:Over.
  - exists g. apply move_over. exact Over.
  - rewrite move_running by (exact Over || exact (inv_snake g I)).
    destruct (collides g) eqn:C; [eexists; reflexivity |].
    rewrite (overlap_is_equality g I (proj1 (proj1 (collides_false g) C))).
    unfold eats in Hne. rewrite Over, C in Hne. cbn in Hne. rewrite Hne.
    eexists; reflexivity.
Qed.

Lemma move_returns_when_fed (t : tape) (g : Game) (f : Z * Z) (rest : tape) :
  invariant g -> eats g = true ->
  generate_food t (new_head g :: snake g) = Returned (f, rest) ->
  move t g = Returned (mkGame (new_head g :: snake g) (direction g) f (score g + 1)
                              false (faster (current_speed g)), rest).
Proof.
  intros I He G. apply eats_running in He. destruct He as [Over [C E]].
  rewrite move_running by (exact Over || exact (inv_snake g I)).
  rewrite C, (overlap_is_equality g I (proj1 (proj1 (collides_false g) C))).
  rewrite (proj2 (tuple_eqb_eq _ _) E), G. reflexivity.
Qed.

(** ** Runs of the main loop stay reachable *)

Lemma handle_events_reachable (evs : list event) (t : tape) (g g' : Game) (rest : tape) :
  reachable g -> handle_events evs t g = Returned (g', rest) -> reachable g'.
Proof.
  revert t g. induction evs as [| ev evs IH]; intros t g R.
  - simpl. intros E; inversion E; subst. exact R.
  - destruct ev as [| k |]; simpl; [discriminate | | apply IH; exact R].
    destruct (keydown t g k) as [[g1 r1] | | |] eqn:K; cbn [bind]; try discriminate.
    apply IH. exact (reach_key _ _ _ _ _ R K).
Qed.

Lemma frame_reachable (evs : list event) (t : tape) (g g' : Game) (rest : tape) :
  reachable g -> frame evs t g = Returned (g', rest) -> reachable g'.
Proof.
  intros R. unfold frame.
  destruct (handle_events evs t g) as [[g1 r1] | | |] eqn:E; cbn [bind]; try discriminate.
  intros M. exact (reach_move _ _ _ _ (handle_events_reachable _ _ _ _ _ R E) M).
Qed.

Lemma frames_reachable (script : list (list event)) (t : tape) (g g' : Game) (rest : tape) :
  reachable g -> frames script t g = Returned (g', rest) -> reachable g'.
Proof.
  revert t g. induction script as [| evs script IH]; intros t g R.
  - simpl. intros E; inversion E; subst. exact R.
  - simpl. destruct (frame evs t g) as [[g1 r1] | | |] eqn:F; cbn [bind]; try discriminate.
    apply IH. exact (frame_reachable _ _ _ _ _ R F).
Qed.

(** ** The sample states are states of real games *)

Lemma fresh_reachable : reachable fresh.
Proof. apply (reach_reset [(17, 9)] fresh []). reflexivity. Qed.

Lemma before_food_reachable : reachable before_food.
Proof. apply (reach_reset [(14, 9)] before_food []). reflexivity. Qed.

Lemma two_cells_reachable : reachable two_cells.
Proof.
  apply (reach_move before_food [(0, 0)] two_cells [] before_food_reachable).
  vm_compute. reflexivity.
Qed.

Lemma at_right_edge_reachable : reachable at_right_edge.
Proof.
  assert (R : reachable (mkGame [(392, 280)] RIGHT (28, 28) 0 false INITIAL_SPEED))
    by (apply (reach_reset [(0, 0)] _ []); reflexivity).
  apply (frames_reachable (repeat [] 13) [] _ at_right_edge [] R).
  vm_compute. reflexivity.
Qed.

Lemma at_left_wall_reachable : reachable at_left_wall.
Proof.
  assert (R : reachable (mkGame [(392, 280)] RIGHT (28, 28) 0 false INITIAL_SPEED))
    by (apply (reach_reset [(0, 0)] _ []); reflexivity).
  assert (R1 : reachable (mkGame [(0, 252)] LEFT (28, 28) 0 false INITIAL_SPEED)).
  { apply (frames_reachable ([KEYDOWN K_UP] :: [KEYDOWN K_LEFT] :: repeat [] 13) [] _ _ [] R).
    vm_compute. reflexivity. }
  assert (R2 : reachable (mkGame [(0, 280)] DOWN (28, 28) 0 false INITIAL_SPEED)).
  { apply (frame_reachable [KEYDOWN K_DOWN] [] _ _ [] R1). vm_compute. reflexivity. }
  apply (reach_key _ K_LEFT [] at_left_wall [] R2). vm_compute. reflexivity.
Qed.

Lemma five_cells_reachable :
  reachable (mkGame [(504, 280); (476, 280); (448, 280); (420, 280); (392, 280)]
                    RIGHT (28, 28) 4 false (speed_level 4)).
Proof.
  apply (frames_reachable [[]; []; []; []] [(15, 9); (16, 9); (17, 9); (0, 0)]
           before_food _ [] before_food_reachable).
  vm_compute. reflexivity.
Qed.

Lemma curled_reachable : reachable curled.
Proof.
  assert (R : reachable (mkGame [(392, 280); (392, 308); (364, 308); (364, 280); (364, 252)]
                                UP (28, 28) 4 false (speed_level 4))).
  { apply (frames_reachable
             [[KEYDOWN K_UP]; [KEYDOWN K_LEFT]; []; []; []; [];
              [KEYDOWN K_DOWN]; []; [KEYDOWN K_RIGHT]; [KEYDOWN K_UP]]
             [] _ _ [] five_cells_reachable).
    vm_compute. reflexivity. }
  apply (reach_key _ K_LEFT [] curled [] R). vm_compute. reflexivity.
Qed.

Lemma four_cells_reachable :
  reachable (mkGame [(476, 280); (448, 280); (420, 280); (392, 280)]
                    RIGHT (28, 28) 3 false (speed_level 3)).
Proof.
  apply (frames_reachable [[]; []; []] [(15, 9); (16, 9); (0, 0)]
           before_food _ [] before_food_reachable).
  vm_compute. reflexivity.
Qed.

Lemma chasing_tail_reachable : reachable chasing_tail.
Proof.
  assert (R : reachable (mkGame [(392, 280); (392, 308); (364, 308); (364, 280)]
                                UP (28, 28) 3 false (speed_level 3))).
  { apply (frames_reachable
             [[KEYDOWN K_UP]; [KEYDOWN K_LEFT]; []; []; [];
              [KEYDOWN K_DOWN]; []; [KEYDOWN K_RIGHT]; [KEYDOWN K_UP]]
             [] _ _ [] four_cells_reachable).
    vm_compute. reflexivity. }
  apply (reach_key _ K_LEFT [] chasing_tail [] R). vm_compute. reflexivity.
Qed.

(** * The boundary *)

(** C1, as the code has it.  In a running game, when the new head is either
    inside the grid of [W] x [H] cells or past the screen (a negative column
    or row, a column above [W], a row above [H]), [move] sets [game_over]
    and changes nothing else exactly when the new head is outside the grid
    or on the snake.  Column [W] and row [H] themselves are left open. *)
Theorem move_ends_game_off_grid_or_on_snake (t : tape) (g : Game) :
  game_over g = false -> snake g <> [] ->
  inside_grid (new_head g) \/ beyond_screen (new_head g) ->
  (move t g = Returned (with_game_over g true, t)
   <-> (~ inside_grid (new_head g) \/ In (new_head g) (snake g))).
Proof.
  intros Over Hs Hwhere. rewrite move_running by assumption.
  destruct (collides g) eqn:C.
  - split; [intros _ | reflexivity].
    unfold collides in C. apply orb_true_iff in C. destruct C as [C | C].
    + left. intros Hin. apply inside_grid_in_bounds in Hin. congruence.
    + right. apply contains_In. exact C.
  - apply collides_false in C. destruct C as [Hb Hnot]. split.
    + intros E. exfalso.
      destruct (pygame.colliderect _ _).
      * destruct (generate_food t (new_head g :: snake g)) as [[f r] | | |];
          cbn [bind] in E; discriminate.
      * apply (f_equal (fun o => match o with
                                 | Returned (g1, _) => game_over g1
                                 | _ => true
                                 end)) in E.
        cbn in E. congruence.
    + intros [Hout | Hin]; [| contradiction].
      destruct Hwhere as [Hin | Hbeyond]; [contradiction |].
      apply beyond_screen_out_of_bounds in Hbeyond. congruence.
Qed.

Lemma move_ends_game_off_grid_or_on_snake_witness :
  move [] at_left_wall = Returned (with_game_over at_left_wall true, [])
  <-> (~ inside_grid (new_head at_left_wall)
       \/ In (new_head at_left_wall) (snake at_left_wall)).
Proof.
  apply (move_ends_game_off_grid_or_on_snake [] at_left_wall).
  - reflexivity.
  - discriminate.
  - right. left. vm_compute. reflexivity.
Defined.

(** C1 fails as stated, in both directions: a head entering column 28 is
    outside the grid of 28 columns and the game goes on; a head inside the
    grid that lands on the snake ends the game. *)
Lemma boundary_claim_fails :
  (~ inside_grid (new_head at_right_edge)
   /\ move [] at_right_edge = Returned (past_right_edge, []))
  /\ (inside_grid (new_head curled)
      /\ move [] curled = Returned (with_game_over curled true, [])).
Proof.
  split; split.
  - intros [[_ Hc] _]. vm_compute in Hc. discriminate.
  - vm_compute. reflexivity.
  - vm_compute. repeat split; discriminate.
  - vm_compute. reflexivity.
Qed.

(** * The direction *)

(** C2 on the code: moving right with two cells, UP then LEFT inside one
    frame leave [direction] at LEFT, and the [move] of that frame runs the
    head into the second cell.  The check of each arrow reads the direction
    the previous key already replaced. *)
Theorem two_keys_reverse_the_snake :
  direction two_cells = RIGHT
  /\ handle_events [KEYDOWN K_UP; KEYDOWN K_LEFT] [] two_cells
     = Returned (with_direction two_cells LEFT, [])
  /\ frame [KEYDOWN K_UP; KEYDOWN K_LEFT] [] two_cells
     = Returned (with_game_over (with_direction two_cells LEFT) true, [])
  /\ frame [KEYDOWN K_UP; KEYDOWN K_DOWN] [] two_cells
     = Returned (mkGame [(420, 252); (420, 280)] UP (28, 28) 1 false
                        (faster INITIAL_SPEED), []).
Proof. repeat split. Qed.

(** A single arrow opposite to [direction] is ignored, whatever the length
    of the snake; any other arrow is taken. *)
Theorem opposite_arrow_is_ignored (g : Game) :
  (direction g = DOWN -> steer g K_UP = g)
  /\ (direction g = UP -> steer g K_DOWN = g)
  /\ (direction g = RIGHT -> steer g K_LEFT = g)
  /\ (direction g = LEFT -> steer g K_RIGHT = g)
  /\ (game_over g = false -> direction g <> DOWN -> direction (steer g K_UP) = UP)
  /\ (game_over g = false -> direction g <> UP -> direction (steer g K_DOWN) = DOWN)
  /\ (game_over g = false -> direction g <> RIGHT -> direction (steer g K_LEFT) = LEFT)
  /\ (game_over g = false -> direction g <> LEFT -> direction (steer g K_RIGHT) = RIGHT).
Proof.
  unfold steer.
  repeat split;
    try (intros ->; destruct (negb (game_over g)); reflexivity);
    intros -> Hd; apply tuple_eqb_neq in Hd; cbn [negb]; rewrite Hd; reflexivity.
Qed.

(** * Food placement *)

Lemma sampled_cells_complete (d : Z * Z) : In (candidate d) sampled_cells.
Proof.
  destruct (candidate_margin d) as [Hc Hr].
  destruct (candidate_aligned d) as [[a [_ Ea]] [b [_ Eb]]].
  unfold cell_of in Hc, Hr. cbn [fst snd] in Hc, Hr.
  change (W - 2) with 26 in Hc. change (H - 2) with 19 in Hr.
  rewrite Ea in Hc. rewrite Eb in Hr.
  rewrite Z.div_mul in Hc, Hr by discriminate.
  rewrite (surjective_pairing (candidate d)), Ea, Eb.
  unfold sampled_cells. apply in_flat_map. exists a. split.
  - apply in_map_iff. exists (Z.to_nat a). split; [lia | apply in_seq; lia].
  - apply in_map_iff. exists b. split; [reflexivity |].
    apply in_map_iff. exists (Z.to_nat b). split; [lia | apply in_seq; lia].
Qed.

(** C3, as the code has it.  [generate_food] has no budget of retries and no
    fault to report.  It returns exactly when some pair of draws stands for
    a cell that is not on the snake, with the first such cell and the draws
    after it; while every draw lands on the snake it goes on sampling; it
    ends in no other way. *)
Theorem generate_food_first_free_candidate (t : tape) (s : list (Z * Z)) :
  (forall f rest,
      generate_food t s = Returned (f, rest) <->
      exists pre d, t = pre ++ d :: rest /\ Forall (fun e => In (candidate e) s) pre
                    /\ ~ In (candidate d) s /\ f = candidate d)
  /\ (generate_food t s = Sampling <-> Forall (fun e => In (candidate e) s) t)
  /\ generate_food t s <> IndexError
  /\ generate_food t s <> Exited.
Proof.
  split; [| split].
  - intros f rest. apply generate_food_returned.
  - apply generate_food_sampling.
  - apply generate_food_outcomes.
Qed.

(** C3 fails as stated.  With a snake on every cell that can be sampled, no
    tape, however long, makes [generate_food] do anything but sample; and
    with a snake of one cell, a tape that draws that cell again and again
    is never cut short by a budget, whatever its length. *)
Lemma food_placement_has_no_budget :
  ~ (exists t, generate_food t sampled_cells <> Sampling)
  /\ ~ (exists n, generate_food (repeat (13, 9) n) [(392, 280)] <> Sampling).
Proof.
  split.
  - intros [t Ht]. apply Ht. apply generate_food_sampling.
    apply Forall_forall. intros d _. apply sampled_cells_complete.
  - intros [n Hn]. apply Hn. apply generate_food_sampling.
    apply Forall_forall. intros d Hd. apply repeat_spec in Hd. subst d.
    left. reflexivity.
Qed.

(** * Self collision *)

(** C4.  In a running game whose new head is inside the grid, [move] sets
    [game_over] exactly when the new head is a cell of the snake as it is
    before the call; the last cell counts like any other. *)
Theorem move_ends_game_on_own_body (t : tape) (g : Game) :
  game_over g = false -> snake g <> [] -> inside_grid (new_head g) ->
  ((exists g' rest, move t g = Returned (g', rest) /\ game_over g' = true)
   <-> In (new_head g) (snake g))
  /\ (new_head g = last (snake g) (0, 0) ->
      move t g = Returned (with_game_over g true, t)).
Proof.
  intros Over Hs Hin. apply inside_grid_in_bounds in Hin.
  rewrite move_running by assumption. unfold collides. rewrite Hin. cbn [orb].
  assert (Hiff : (exists g' rest,
                     (if contains (snake g) (new_head g)
                      then Returned (with_game_over g true, t)
                      else if pygame.colliderect (cell_rect (new_head g)) (cell_rect (food g))
                           then '(food1, rest0) <- generate_food t (new_head g :: snake g) ;;
                                Returned (mkGame (new_head g :: snake g) (direction g) food1
                                                 (score g + 1) false
                                                 (faster (current_speed g)), rest0)
                           else Returned (with_snake g (removelast (new_head g :: snake g)), t))
                     = Returned (g', rest) /\ game_over g' = true)
                 <-> In (new_head g) (snake g)).
  { destruct (contains (snake g) (new_head g)) eqn:C.
    - apply contains_In in C. split; [intros _; exact C |].
      intros _. exists (with_game_over g true), t. split; reflexivity.
    - apply contains_not_In in C. split; [| contradiction].
      intros [g' [rest [E Hg']]]. exfalso.
      destruct (pygame.colliderect _ _).
      + destruct (generate_food t (new_head g :: snake g)) as [[f r] | | |];
          cbn [bind] in E; try discriminate.
        inversion E; subst. discriminate.
      + inversion E; subst. cbn in Hg'. congruence. }
  split; [exact Hiff |].
  intros Hlast.
  assert (Hon : In (new_head g) (snake g)).
  { rewrite Hlast. apply last_is_member. exact Hs. }
  apply contains_In in Hon. rewrite Hon. reflexivity.
Qed.

Lemma move_ends_game_on_own_body_witness :
  ((exists g' rest, move [] chasing_tail = Returned (g', rest) /\ game_over g' = true)
   <-> In (new_head chasing_tail) (snake chasing_tail))
  /\ (new_head chasing_tail = last (snake chasing_tail) (0, 0) ->
      move [] chasing_tail = Returned (with_game_over chasing_tail true, [])).
Proof.
  apply (move_ends_game_on_own_body [] chasing_tail).
  - reflexivity.
  - discriminate.
  - vm_compute. repeat split; discriminate.
Defined.

(** * Growth *)

(** C5.  When a [move] of a running game hits nothing, the snake it leaves
    is one cell longer if the new head is the food and as long as before
    otherwise.  Such a [move] returns at once when the new head is not the
    food, and as soon as [generate_food] returns when it is. *)
Theorem move_grows_by_food (t : tape) (g : Game) :
  reachable g -> game_over g = false -> collides g = false ->
  (forall g' rest, move t g = Returned (g', rest) ->
     length (snake g') =
     (length (snake g) + if tuple_eqb (new_head g) (food g) then 1 else 0)%nat)
  /\ (new_head g <> food g -> exists g', move t g = Returned (g', t))
  /\ (new_head g = food g ->
      forall f rest, generate_food t (new_head g :: snake g) = Returned (f, rest) ->
                     exists g', move t g = Returned (g', rest)).
Proof.
  intros R Over C. apply reachable_invariant in R. split; [| split].
  - intros g' rest M. pose proof (move_cases t g g' rest R M) as D.
    rewrite Over, C in D.
    destruct (tuple_eqb (new_head g) (food g)).
    + destruct D as [f [_ ->]]. cbn [snake length]. lia.
    + destruct D as [-> _]. cbn [with_snake snake].
      rewrite removelast_cons_length. lia.
  - intros Hne. apply move_returns_unless_eating; [exact R |].
    unfold eats. rewrite (proj2 (tuple_eqb_neq _ _) Hne).
    apply andb_false_r.
  - intros He f rest G. eexists. apply move_returns_when_fed; [exact R | | exact G].
    apply eats_running. auto.
Qed.

Lemma move_grows_by_food_witness :
  (forall g' rest, move [(0, 0)] before_food = Returned (g', rest) ->
     length (snake g') =
     (length (snake before_food)
      + if tuple_eqb (new_head before_food) (food before_food) then 1 else 0)%nat)
  /\ (new_head before_food <> food before_food ->
      exists g', move [(0, 0)] before_food = Returned (g', [(0, 0)]))
  /\ (new_head before_food = food before_food ->
      forall f rest,
        generate_food [(0, 0)] (new_head before_food :: snake before_food)
        = Returned (f, rest) ->
        exists g', move [(0, 0)] before_food = Returned (g', rest)).
Proof.
  apply (move_grows_by_food [(0, 0)] before_food).
  - exact before_food_reachable.
  - reflexivity.
  - reflexivity.
Defined.

(** * Food and snake *)

(** C6.  In every state a game can reach, by [reset_game], keys and [move],
    the food is on no cell of the snake.  The states right after
    [reset_game] and right after a [move] that ate are among them. *)
Theorem food_is_never_on_the_snake (g : Game) :
  reachable g -> ~ In (food g) (snake g).
Proof. intros R. exact (inv_food g (reachable_invariant g R)). Qed.

Lemma food_is_never_on_the_snake_witness : ~ In (food two_cells) (snake two_cells).
Proof. apply (food_is_never_on_the_snake two_cells). exact two_cells_reachable. Defined.

(** * Speed *)

Lemma plays_speed_level (g g' : Game) :
  plays g g' -> invariant g ->
  forall n, current_speed g = speed_level n ->
            exists m, (n <= m)%nat /\ current_speed g' = speed_level m.
Proof.
  induction 1 as [g | g t g1 rest g2 M _ IH | g k g2 _ IH]; intros I n Hn.
  - exists n. split; [lia | exact Hn].
  - pose proof (move_cases t g g1 rest I M) as D.
    pose proof (move_invariant t g g1 rest I M) as I1.
    assert (Hstep : current_speed g1 = speed_level n \/ current_speed g1 = speed_level (S n)).
    { destruct (game_over g); [destruct D as [-> _]; left; exact Hn |].
      destruct (collides g); [destruct D as [-> _]; left; exact Hn |].
      destruct (tuple_eqb (new_head g) (food g)).
      - destruct D as [f [_ ->]]. right. cbn [current_speed]. rewrite Hn.
        apply speed_level_faster.
      - destruct D as [-> _]. left. exact Hn. }
    destruct Hstep as [E | E]; destruct (IH I1 _ E) as [m [Hm Em]];
      exists m; split; (lia || exact Em).
  - destruct (steer_keeps g k) as [_ [_ [_ [_ [Esp _]]]]].
    apply (IH (steer_invariant g k I) n). rewrite Esp. exact Hn.
Qed.

(** C7.  The speed of a reachable state lies between [INITIAL_SPEED] and
    [MAX_SPEED].  A [move] that eats makes it
    [min(speed + SPEED_INCREMENT, MAX_SPEED)], in binary64 arithmetic as in
    Python; any other [move] keeps it.  Through any number of moves and
    arrow keys with no [reset_game] it never decreases.  The moves in
    question do return: one that does not eat returns at once with the
    speed it had, one that eats returns with the raised speed as soon as
    [generate_food] returns. *)
Theorem speed_rises_to_max (g : Game) :
  reachable g ->
  (PrimFloat.leb INITIAL_SPEED (current_speed g) = true
   /\ PrimFloat.leb (current_speed g) MAX_SPEED = true)
  /\ (forall t g' rest, move t g = Returned (g', rest) ->
        current_speed g' =
        (if eats g
         then py_min (PrimFloat.add (current_speed g) SPEED_INCREMENT) MAX_SPEED
         else current_speed g)
        /\ PrimFloat.leb (current_speed g) (current_speed g') = true)
  /\ (forall g', plays g g' ->
        PrimFloat.leb (current_speed g) (current_speed g') = true)
  /\ (eats g = false ->
      forall t, exists g', move t g = Returned (g', t)
                           /\ current_speed g' = current_speed g)
  /\ (eats g = true ->
      forall t f rest,
        generate_food t (new_head g :: snake g) = Returned (f, rest) ->
        exists g', move t g = Returned (g', rest)
                   /\ current_speed g'
                      = py_min (PrimFloat.add (current_speed g) SPEED_INCREMENT) MAX_SPEED
                   /\ PrimFloat.leb (current_speed g) (current_speed g') = true).
Proof.
  intros R. apply reachable_invariant in R.
  destruct (inv_speed g R) as [n Hn].
  assert (Hstep : forall t g' rest, move t g = Returned (g', rest) ->
            current_speed g' =
            (if eats g
             then py_min (PrimFloat.add (current_speed g) SPEED_INCREMENT) MAX_SPEED
             else current_speed g)
            /\ PrimFloat.leb (current_speed g) (current_speed g') = true).
  { intros t g' rest M. pose proof (move_cases t g g' rest R M) as D.
    unfold eats. split.
    + destruct (game_over g); [destruct D as [-> _]; reflexivity |].
      destruct (collides g); [destruct D as [-> _]; reflexivity |].
      destruct (tuple_eqb (new_head g) (food g)).
      * destruct D as [f [_ ->]]. reflexivity.
      * destruct D as [-> _]. reflexivity.
    + destruct (plays_speed_level g g' (plays_move g t g' rest g' M (plays_done g')) R n Hn)
        as [m [Hm Em]].
      rewrite Hn, Em. apply speed_level_mono. exact Hm. }
  split; [| split; [exact Hstep | split; [| split]]].
  - rewrite Hn. apply speed_level_bounds.
  - intros g' P. destruct (plays_speed_level g g' P R n Hn) as [m [Hm Em]].
    rewrite Hn, Em. apply speed_level_mono. exact Hm.
  - intros He t. destruct (move_returns_unless_eating t g R He) as [g' M].
    exists g'. split; [exact M |].
    destruct (Hstep t g' t M) as [E _]. rewrite He in E. exact E.
  - intros He t f rest G.
    pose proof (move_returns_when_fed t g f rest R He G) as M.
    eexists. split; [exact M |].
    destruct (Hstep _ _ _ M) as [E L]. rewrite He in E. split; [exact E | exact L].
Qed.

Lemma speed_rises_to_max_witness :
  move [(13, 9); (0, 0)] before_food = Returned (two_cells, [])
  /\ current_speed two_cells
     = py_min (PrimFloat.add (current_speed before_food) SPEED_INCREMENT) MAX_SPEED
  /\ PrimFloat.leb (current_speed before_food) (current_speed two_cells) = true
  /\ PrimFloat.leb INITIAL_SPEED (current_speed before_food) = true.
Proof.
  assert (M : move [(13, 9); (0, 0)] before_food = Returned (two_cells, []))
    by (vm_compute; reflexivity).
  destruct (speed_rises_to_max before_food before_food_reachable)
    as [[Hlow _] [Hstep _]].
  destruct (Hstep _ _ _ M) as [E L].
  split; [exact M | split; [exact E | split; [exact L | exact Hlow]]].
Defined.

(** * Score *)

(** C8.  The score of a reachable state is not negative.  A [move] that
    eats adds exactly 1 to it, any other [move] leaves it as it was, and
    [reset_game] sets it to 0.  These calls do return: a [move] that does
    not eat at once, a [move] that eats and [reset_game] as soon as
    [generate_food] returns. *)
Theorem score_counts_the_food (g : Game) :
  reachable g ->
  0 <= score g
  /\ (forall t g' rest, move t g = Returned (g', rest) ->
        score g' = score g + (if eats g then 1 else 0))
  /\ (forall t g0 rest, reset_game t = Returned (g0, rest) -> score g0 = 0)
  /\ (eats g = false ->
      forall t, exists g', move t g = Returned (g', t) /\ score g' = score g)
  /\ (eats g = true ->
      forall t f rest,
        generate_food t (new_head g :: snake g) = Returned (f, rest) ->
        exists g', move t g = Returned (g', rest) /\ score g' = score g + 1)
  /\ (forall t f rest,
        generate_food t [(392, 280)] = Returned (f, rest) ->
        exists g0, reset_game t = Returned (g0, rest) /\ score g0 = 0).
Proof.
  intros R. apply reachable_invariant in R.
  assert (Hstep : forall t g' rest, move t g = Returned (g', rest) ->
                                    score g' = score g + (if eats g then 1 else 0)).
  { intros t g' rest M. pose proof (move_cases t g g' rest R M) as D.
    unfold eats.
    destruct (game_over g); [destruct D as [-> _]; cbn; lia |].
    destruct (collides g); [destruct D as [-> _]; cbn; lia |].
    destruct (tuple_eqb (new_head g) (food g)).
    + destruct D as [f [_ ->]]. reflexivity.
    + destruct D as [-> _]. cbn. lia. }
  split; [exact (inv_score g R) |].
  split; [exact Hstep |].
  split; [intros t g0 rest E; apply reset_game_returned in E; tauto |].
  split; [| split].
  - intros He t. destruct (move_returns_unless_eating t g R He) as [g' M].
    exists g'. split; [exact M |].
    rewrite (Hstep t g' t M), He. lia.
  - intros He t f rest G.
    pose proof (move_returns_when_fed t g f rest R He G) as M.
    eexists. split; [exact M |].
    rewrite (Hstep _ _ _ M), He. reflexivity.
  - intros t f rest G. unfold reset_game.
    change ((WIDTH / 2) / CELL_SIZE * CELL_SIZE) with 392.
    change ((HEIGHT / 2) / CELL_SIZE * CELL_SIZE) with 280.
    rewrite G. cbn [bind]. eexists. split; reflexivity.
Qed.

Lemma score_counts_the_food_witness :
  reset_game [(14, 9)] = Returned (before_food, [])
  /\ score before_food = 0
  /\ move [(13, 9); (0, 0)] before_food = Returned (two_cells, [])
  /\ score two_cells = score before_food + 1.
Proof.
  assert (Z0 : reset_game [(14, 9)] = Returned (before_food, []))
    by (vm_compute; reflexivity).
  assert (M : move [(13, 9); (0, 0)] before_food = Returned (two_cells, []))
    by (vm_compute; reflexivity).
  destruct (score_counts_the_food before_food before_food_reachable)
    as [_ [Hstep [Hreset _]]].
  split; [exact Z0 | split; [exact (Hreset _ _ _ Z0) | split; [exact M |]]].
  exact (Hstep _ _ _ M).
Defined.

(** * Game over *)

Lemma steer_game_over (g : Game) (k : key) : game_over g = true -> steer g k = g.
Proof. intros Over. unfold steer. rewrite Over. reflexivity. Qed.

Lemma steer_space (g : Game) : steer g K_SPACE = g.
Proof. unfold steer. destruct (negb (game_over g)); reflexivity. Qed.

(** C9.  Once [game_over] is set, [move] and the arrow keys return the state
    as it is; a key that changes the state at all is SPACE, and what it
    gives is the state [reset_game] makes, whose [game_over] is clear.
    [reset_game] returns as soon as a draw misses the start cell. *)
Theorem game_over_holds_until_reset (t : tape) (g : Game) :
  game_over g = true ->
  move t g = Returned (g, t)
  /\ (forall k, steer g k = g)
  /\ (forall k g' rest, keydown t g k = Returned (g', rest) ->
        (g' = g /\ rest = t) \/ (k = K_SPACE /\ reset_game t = Returned (g', rest)))
  /\ keydown t g K_SPACE = reset_game t
  /\ (forall g' rest, reset_game t = Returned (g', rest) -> game_over g' = false)
  /\ (forall d rest, candidate d <> (392, 280) ->
        reset_game (d :: rest)
        = Returned (mkGame [(392, 280)] RIGHT (candidate d) 0 false INITIAL_SPEED, rest)).
Proof.
  intros Over.
  assert (Hspace : keydown t g K_SPACE = reset_game t).
  { unfold keydown. rewrite Over.
    destruct (reset_game t) as [[g1 r1] | | |]; cbn [bind]; try reflexivity.
    rewrite steer_space. reflexivity. }
  split; [apply move_over; exact Over |].
  split; [intros k; apply steer_game_over; exact Over |].
  split; [| split; [exact Hspace | split]].
  - intros k g' rest K. destruct k;
      try (unfold keydown in K; rewrite steer_game_over in K by exact Over;
           inversion K; left; split; reflexivity).
    + right. split; [reflexivity |]. rewrite <- Hspace. exact K.
    + discriminate K.
  - intros g' rest E. apply reset_game_returned in E. tauto.
  - intros d rest Hd. unfold reset_game.
    change ((WIDTH / 2) / CELL_SIZE * CELL_SIZE) with 392.
    change ((HEIGHT / 2) / CELL_SIZE * CELL_SIZE) with 280.
    rewrite generate_food_step.
    assert (C : contains [(392, 280)] (candidate d) = false).
    { apply contains_not_In. intros [E | []]. apply Hd. symmetry. exact E. }
    rewrite C. reflexivity.
Qed.

Lemma game_over_holds_until_reset_witness :
  move [(0, 0)] crashed = Returned (crashed, [(0, 0)])
  /\ (forall k, steer crashed k = crashed)
  /\ (forall k g' rest, keydown [(0, 0)] crashed k = Returned (g', rest) ->
        (g' = crashed /\ rest = [(0, 0)])
        \/ (k = K_SPACE /\ reset_game [(0, 0)] = Returned (g', rest)))
  /\ keydown [(0, 0)] crashed K_SPACE = reset_game [(0, 0)]
  /\ (forall g' rest, reset_game [(0, 0)] = Returned (g', rest) -> game_over g' = false)
  /\ (forall d rest, candidate d <> (392, 280) ->
        reset_game (d :: rest)
        = Returned (mkGame [(392, 280)] RIGHT (candidate d) 0 false INITIAL_SPEED, rest)).
Proof. apply (game_over_holds_until_reset [(0, 0)] crashed). reflexivity. Defined.

(** * Alignment *)

(** C10.  In every reachable state each coordinate of each cell of the
    snake and of the food is [k * CELL_SIZE] for some [k >= 0].
    [generate_food] returns such a position, [reset_game] starts from such
    a state and [move] keeps it so.  On such positions the rectangles of
    [move] overlap exactly when the new head is the food. *)
Theorem positions_stay_on_the_grid (g : Game) :
  reachable g ->
  grid_aligned g
  /\ (forall t g' rest, move t g = Returned (g', rest) -> grid_aligned g')
  /\ (forall t g0 rest, reset_game t = Returned (g0, rest) -> grid_aligned g0)
  /\ (forall t s f rest, generate_food t s = Returned (f, rest) -> aligned f)
  /\ (out_of_bounds (new_head g) = false ->
      (pygame.colliderect (cell_rect (new_head g)) (cell_rect (food g)) = true
       <-> new_head g = food g)).
Proof.
  intros R. apply reachable_invariant in R.
  split; [exact (inv_aligned g R) |].
  split; [intros t g' rest M; exact (inv_aligned g' (move_invariant t g g' rest R M)) |].
  split; [intros t g0 rest E; exact (inv_aligned g0 (reset_game_invariant t g0 rest E)) |].
  split; [intros t s f rest G; exact (proj2 (generate_food_free t s f rest G)) |].
  intros Hb. rewrite (overlap_is_equality g R Hb). apply tuple_eqb_eq.
Qed.

Lemma positions_stay_on_the_grid_witness :
  grid_aligned two_cells
  /\ (forall t g' rest, move t two_cells = Returned (g', rest) -> grid_aligned g')
  /\ (forall t g0 rest, reset_game t = Returned (g0, rest) -> grid_aligned g0)
  /\ (forall t s f rest, generate_food t s = Returned (f, rest) -> aligned f)
  /\ (out_of_bounds (new_head two_cells) = false ->
      (pygame.colliderect (cell_rect (new_head two_cells)) (cell_rect (food two_cells)) = true
       <-> new_head two_cells = food two_cells)).
Proof. apply (positions_stay_on_the_grid two_cells). exact two_cells_reachable. Defined.

(** * The shape of the snake, the food and the speed along a game *)

Lemma removelast_NoDup (A : Type) (l : list A) : NoDup l -> NoDup (removelast l).
Proof.
  intros N. destruct l as [| a l]; [exact N |].
  rewrite (app_removelast_last a (l := a :: l)) in N by discriminate.
  exact (NoDup_app_remove_r _ _ N).
Qed.

Lemma connected_tail (p : Z * Z) (l : list (Z * Z)) : connected (p :: l) -> connected l.
Proof. destruct l as [| q l]; [intros _; exact I | intros [_ C]; exact C]. Qed.

Lemma connected_removelast (l : list (Z * Z)) : connected l -> connected (removelast l).
Proof.
  induction l as [| p l IH]; [auto |].
  destruct l as [| q l]; [auto |].
  intros [Hpq C]. specialize (IH C).
  change (removelast (p :: q :: l)) with (p :: removelast (q :: l)).
  destruct l as [| r l]; [exact I |].
  change (removelast (q :: r :: l)) with (q :: removelast (r :: l)) in *.
  split; [exact Hpq | exact IH].
Qed.

Lemma new_head_neighbour (g : Game) :
  is_arrow (direction g) -> neighbours (new_head g) (hd (0, 0) (snake g)).
Proof.
  unfold new_head, neighbours, new_head_of, CELL_SIZE.
  destruct (hd (0, 0) (snake g)) as [hx hy].
  intros [E | [E | [E | E]]]; rewrite E; cbn [fst snd UP DOWN LEFT RIGHT]; lia.
Qed.

Lemma connected_new_head (g : Game) :
  is_arrow (direction g) -> connected (snake g) -> connected (new_head g :: snake g).
Proof.
  intros Hd C. pose proof (new_head_neighbour g Hd) as N.
  destruct (snake g) as [| h l]; [exact I | split; [exact N | exact C]].
Qed.

Lemma on_screen_in_bounds (p : Z * Z) : on_screen p <-> out_of_bounds p = false.
Proof. symmetry. apply out_of_bounds_false. Qed.

Lemma candidate_in_margin (d : Z * Z) : in_margin (candidate d).
Proof. exact (candidate_margin d). Qed.

Lemma generate_food_in_margin (t : tape) (s : list (Z * Z)) (f : Z * Z) (rest : tape) :
  generate_food t s = Returned (f, rest) -> in_margin f.
Proof.
  intros E. apply generate_food_returned in E.
  destruct E as [pre [d [_ [_ [_ ->]]]]]. apply candidate_in_margin.
Qed.

Lemma reset_game_shape (t : tape) (g : Game) (rest : tape) :
  reset_game t = Returned (g, rest) -> shape g.
Proof.
  intros E. apply reset_game_returned in E.
  destruct E as [Hs [_ [Hsc [_ [Hsp Hf]]]]].
  constructor; rewrite ?Hs, ?Hsc, ?Hsp.
  - constructor; [| constructor]. split; cbn; unfold WIDTH, HEIGHT; lia.
  - constructor; [intros [] | constructor].
  - exact I.
  - reflexivity.
  - reflexivity.
  - exact (generate_food_in_margin _ _ _ _ Hf).
Qed.

Lemma steer_shape (g : Game) (k : key) : shape g -> shape (steer g k).
Proof.
  intros [H1 H2 H3 H4 H5 H6].
  destruct (steer_keeps g k) as [Es [Ef [Esc [_ [Esp _]]]]].
  constructor; rewrite ?Es, ?Ef, ?Esc, ?Esp; assumption.
Qed.

Lemma keydown_shape (t : tape) (g : Game) (k : key) (g' : Game) (rest : tape) :
  shape g -> keydown t g k = Returned (g', rest) -> shape g'.
Proof.
  intros Sh. unfold keydown.
  destruct k; try (intros E; inversion E; subst; apply steer_shape; exact Sh);
    try discriminate.
  destruct (game_over g).
  - destruct (reset_game t) as [[g1 r1] | | |] eqn:R; cbn [bind]; try discriminate.
    intros E; inversion E; subst. apply steer_shape.
    exact (reset_game_shape _ _ _ R).
  - cbn [bind]. intros E; inversion E; subst. apply steer_shape. exact Sh.
Qed.

Lemma move_shape (t : tape) (g g' : Game) (rest : tape) :
  invariant g -> shape g -> move t g = Returned (g', rest) -> shape g'.
Proof.
  intros I Sh M. pose proof (move_cases t g g' rest I M) as D.
  destruct (game_over g); [destruct D as [-> _]; exact Sh |].
  destruct (collides g) eqn:C.
  { destruct D as [-> _]. destruct Sh. constructor; assumption. }
  apply collides_false in C. destruct C as [Hb Hnot].
  destruct Sh as [H1 H2 H3 H4 H5 H6].
  pose proof (inv_score g I) as Hsc.
  destruct (tuple_eqb (new_head g) (food g)).
  - destruct D as [f [G ->]].
    constructor; cbn [snake score current_speed food].
    + constructor; [apply on_screen_in_bounds; exact Hb | exact H1].
    + constructor; assumption.
    + apply connected_new_head; [exact (inv_arrow g I) | exact H3].
    + cbn [length]. lia.
    + rewrite H5, speed_level_faster. f_equal. lia.
    + exact (generate_food_in_margin _ _ _ _ G).
  - destruct D as [-> _].
    constructor; cbn [with_snake snake score current_speed food]; try assumption.
    + apply Forall_forall. intros x Hx.
      apply (removelast_In _ x (new_head g :: snake g)) in Hx.
      destruct Hx as [<- | Hx]; [apply on_screen_in_bounds; exact Hb |].
      rewrite Forall_forall in H1. apply H1. exact Hx.
    + apply (removelast_NoDup _ (new_head g :: snake g)). constructor; assumption.
    + apply (connected_removelast (new_head g :: snake g)).
      apply connected_new_head; [exact (inv_arrow g I) | exact H3].
    + rewrite (removelast_cons_length _ (new_head g) (snake g)). exact H4.
Qed.

Lemma reachable_shape (g : Game) : reachable g -> shape g.
Proof.
  induction 1 as [t g rest R | g k t g' rest Hg IH K | g t g' rest Hg IH M].
  - exact (reset_game_shape _ _ _ R).
  - exact (keydown_shape _ _ _ _ _ IH K).
  - exact (move_shape _ _ _ _ (reachable_invariant g Hg) IH M).
Qed.

(** In every reachable state each cell of the snake has its corner on the
    screen: [0 <= x < WIDTH] and [0 <= y < HEIGHT], which is cell column 0 to
    [W] and cell row 0 to [H], both ends included. *)
Theorem snake_stays_on_screen (g : Game) :
  reachable g ->
  Forall on_screen (snake g)
  /\ Forall (fun p => 0 <= fst (cell_of p) <= W /\ 0 <= snd (cell_of p) <= H) (snake g).
Proof.
  intros R. pose proof (shp_screen g (reachable_shape g R)) as S.
  split; [exact S |].
  rewrite Forall_forall in *. intros p Hp. specialize (S p Hp).
  destruct S as [Hx Hy]. unfold cell_of, WIDTH, HEIGHT, CELL_SIZE in *. cbn [fst snd].
  change W with 28. change H with 21.
  repeat split.
  - apply Z.div_pos; lia.
  - apply Z.lt_succ_r. apply Z.div_lt_upper_bound; lia.
  - apply Z.div_pos; lia.
  - apply Z.lt_succ_r. apply Z.div_lt_upper_bound; lia.
Qed.

Lemma snake_stays_on_screen_witness :
  Forall on_screen (snake at_right_edge)
  /\ Forall (fun p => 0 <= fst (cell_of p) <= W /\ 0 <= snd (cell_of p) <= H)
            (snake at_right_edge).
Proof. apply (snake_stays_on_screen at_right_edge). exact at_right_edge_reachable. Defined.

(** In every reachable state the cells of the snake are pairwise different,
    and each is one cell away from the next along a row or a column. *)
Theorem snake_is_a_simple_path (g : Game) :
  reachable g -> NoDup (snake g) /\ connected (snake g).
Proof.
  intros R. pose proof (reachable_shape g R) as S.
  split; [exact (shp_nodup g S) | exact (shp_chain g S)].
Qed.

Lemma snake_is_a_simple_path_witness : NoDup (snake curled) /\ connected (snake curled).
Proof. apply (snake_is_a_simple_path curled). exact curled_reachable. Defined.

(** In every reachable state the snake has one cell more than the score. *)
Theorem snake_length_is_score_plus_one (g : Game) :
  reachable g -> Z.of_nat (length (snake g)) = score g + 1.
Proof. intros R. exact (shp_length g (reachable_shape g R)). Qed.

Lemma snake_length_is_score_plus_one_witness :
  Z.of_nat (length (snake curled)) = score curled + 1.
Proof. apply (snake_length_is_score_plus_one curled). exact curled_reachable. Defined.

Lemma speed_level_iter (n : nat) : speed_level n = Nat.iter n faster INITIAL_SPEED.
Proof.
  induction n as [| n IH]; [reflexivity |].
  rewrite <- speed_level_faster, IH. reflexivity.
Qed.

Lemma speed_level_below_max :
  forallb (fun n => PrimFloat.ltb (speed_level n) MAX_SPEED) (seq 0 36) = true.
Proof. vm_compute. reflexivity. Qed.

(** In every reachable state the speed is what [score] foods make of
    [INITIAL_SPEED], one [min(speed + SPEED_INCREMENT, MAX_SPEED)] per food:
    below [MAX_SPEED] while the score is under 36, [MAX_SPEED] from 36 on. *)
Theorem speed_is_set_by_the_score (g : Game) :
  reachable g ->
  current_speed g = Nat.iter (Z.to_nat (score g)) faster INITIAL_SPEED
  /\ (score g < 36 -> PrimFloat.ltb (current_speed g) MAX_SPEED = true)
  /\ (36 <= score g -> current_speed g = MAX_SPEED).
Proof.
  intros R. pose proof (shp_speed g (reachable_shape g R)) as S.
  pose proof (inv_score g (reachable_invariant g R)) as Hs.
  split; [| split].
  - rewrite S. apply speed_level_iter.
  - intros Hlt. rewrite S.
    pose proof speed_level_below_max as T. rewrite forallb_forall in T.
    apply T. apply in_seq. lia.
  - intros Hge. rewrite S, speed_level_cap.
    rewrite Nat.min_r by lia. reflexivity.
Qed.

Lemma speed_is_set_by_the_score_witness :
  current_speed curled = Nat.iter (Z.to_nat (score curled)) faster INITIAL_SPEED
  /\ (score curled < 36 -> PrimFloat.ltb (current_speed curled) MAX_SPEED = true)
  /\ (36 <= score curled -> current_speed curled = MAX_SPEED).
Proof. apply (speed_is_set_by_the_score curled). exact curled_reachable. Defined.

(** In every reachable state the food is one cell or more away from the
    border of the grid: cell column 1 to [W - 2], cell row 1 to [H - 2]. *)
Theorem food_keeps_off_the_border (g : Game) :
  reachable g -> in_margin (food g).
Proof. intros R. exact (shp_food g (reachable_shape g R)). Qed.

Lemma food_keeps_off_the_border_witness : in_margin (food fresh).
Proof. apply (food_keeps_off_the_border fresh). exact fresh_reachable. Defined.

(** A [move] that eats puts the head on the cell of the food and keeps every
    cell of the snake behind it; the food it places is another cell, off the
    snake. *)
Theorem eating_moves_the_food (t : tape) (g g' : Game) (rest : tape) :
  reachable g -> eats g = true -> move t g = Returned (g', rest) ->
  snake g' = food g :: snake g
  /\ food g' <> food g
  /\ ~ In (food g') (snake g').
Proof.
  intros R He M. pose proof (reachable_invariant g R) as I.
  pose proof (move_cases t g g' rest I M) as D.
  apply eats_running in He. destruct He as [Over [C E]].
  rewrite Over, C, (proj2 (tuple_eqb_eq _ _) E) in D.
  destruct D as [f [G ->]]. cbn [snake food].
  apply generate_food_free in G. destruct G as [Gfree _].
  rewrite E in *. split; [reflexivity | split; [| exact Gfree]].
  intros Ef. apply Gfree. left. symmetry. exact Ef.
Qed.

Lemma eating_moves_the_food_witness :
  snake two_cells = food before_food :: snake before_food
  /\ food two_cells <> food before_food
  /\ ~ In (food two_cells) (snake two_cells).
Proof.
  apply (eating_moves_the_food [(0, 0)] before_food two_cells []).
  - exact before_food_reachable.
  - reflexivity.
  - vm_compute. reflexivity.
Defined.

(** [move] never turns the snake, and it reads the random source only to
    place food: a [move] that does not eat leaves the food and the tape as
    they are; one that eats uses the draws up to the first one whose cell is
    off the grown snake, every draw before it being on that snake, and makes
    that cell the food. *)
Theorem move_draws_only_for_food (t : tape) (g g' : Game) (rest : tape) :
  reachable g -> move t g = Returned (g', rest) ->
  direction g' = direction g
  /\ (eats g = false -> rest = t /\ food g' = food g)
  /\ (eats g = true ->
      exists pre d, t = pre ++ d :: rest /\ food g' = candidate d
                    /\ Forall (fun e => In (candidate e) (food g :: snake g)) pre
                    /\ ~ In (candidate d) (food g :: snake g)
                    /\ snake g' = food g :: snake g).
Proof.
  intros R M. pose proof (reachable_invariant g R) as I.
  pose proof (move_cases t g g' rest I M) as D. unfold eats.
  destruct (game_over g).
  { destruct D as [-> ->]. cbn. repeat split; discriminate. }
  destruct (collides g).
  { destruct D as [-> ->]. cbn. repeat split; discriminate. }
  destruct (tuple_eqb (new_head g) (food g)) eqn:E.
  - apply tuple_eqb_eq in E. destruct D as [f [G ->]]. cbn.
    split; [reflexivity | split; [discriminate |]]. intros _.
    apply generate_food_returned in G.
    destruct G as [pre [d [Ht [Hpre [Hfree Hf]]]]].
    exists pre, d. rewrite <- E. auto.
  - destruct D as [-> ->]. cbn. repeat split; discriminate.
Qed.

Lemma move_draws_only_for_food_witness :
  direction two_cells = direction before_food
  /\ (eats before_food = false -> [] = [(13, 9); (0, 0)] /\ food two_cells = food before_food)
  /\ (eats before_food = true ->
      exists pre d, [(13, 9); (0, 0)] = pre ++ d :: [] /\ food two_cells = candidate d
                    /\ Forall (fun e => In (candidate e) (food before_food :: snake before_food))
                              pre
                    /\ ~ In (candidate d) (food before_food :: snake before_food)
                    /\ snake two_cells = food before_food :: snake before_food).
Proof.
  apply (move_draws_only_for_food [(13, 9); (0, 0)] before_food two_cells []).
  - exact before_food_reachable.
  - vm_compute. reflexivity.
Defined.

(** * Keys in a running game *)

Lemma with_direction_same (g : Game) : with_direction g (direction g) = g.
Proof. destruct g; reflexivity. Qed.

Lemma steer_running (g : Game) (k : key) :
  game_over g = false ->
  exists d, steer g k = with_direction g d /\ (is_arrow (direction g) -> is_arrow d).
Proof.
  intros Over. unfold steer, is_arrow. rewrite Over. cbn [negb].
  destruct k;
    try (exists (direction g); split; [symmetry; apply with_direction_same | tauto]);
    match goal with |- context [tuple_eqb ?a ?b] => destruct (tuple_eqb a b) end;
    cbn [negb];
    try (exists (direction g); split; [symmetry; apply with_direction_same | tauto]).
  - exists UP. split; [reflexivity | auto].
  - exists DOWN. split; [reflexivity | auto].
  - exists LEFT. split; [reflexivity | auto].
  - exists RIGHT. split; [reflexivity | auto 6].
Qed.

(** While the game runs, the events of a frame can only turn the snake or
    end the program.  With a QUIT event or the Q key among them [run]
    returns; otherwise the state keeps everything but its direction, which
    stays an arrow, and no random draw is used. *)
Theorem keys_only_steer_a_running_game (evs : list event) (t : tape) (g : Game) :
  game_over g = false ->
  (existsb is_quit evs = true -> handle_events evs t g = Exited)
  /\ (existsb is_quit evs = false ->
      exists d, handle_events evs t g = Returned (with_direction g d, t)
                /\ (is_arrow (direction g) -> is_arrow d)).
Proof.
  revert g. induction evs as [| ev evs IH]; intros g Over.
  - cbn. split; [discriminate | intros _].
    exists (direction g). rewrite with_direction_same. auto.
  - destruct ev as [| k |].
    + cbn. split; [reflexivity | discriminate].
    + destruct (steer_running g k Over) as [d1 [E1 A1]].
      assert (Over1 : game_over (with_direction g d1) = false) by exact Over.
      destruct (IH (with_direction g d1) Over1) as [IHq IHs].
      assert (K : k <> K_q -> keydown t g k = Returned (with_direction g d1, t)).
      { intros Hk. unfold keydown. rewrite Over.
        destruct k; try contradiction; cbn [bind]; rewrite E1; reflexivity. }
      destruct k; cbn [handle_events existsb is_quit orb];
        try (rewrite K by discriminate; cbn [bind]; split;
             [ exact IHq
             | intros Q; destruct (IHs Q) as [d [E A]]; exists d; split;
               [exact E | intros Ha; apply A, A1, Ha] ]).
      split; [reflexivity | discriminate].
    + cbn [handle_events existsb is_quit orb]. apply IH. exact Over.
Qed.

Lemma keys_only_steer_a_running_game_witness :
  (existsb is_quit [KEYDOWN K_SPACE; KEYDOWN K_UP; OTHER] = true ->
   handle_events [KEYDOWN K_SPACE; KEYDOWN K_UP; OTHER] [(0, 0)] two_cells = Exited)
  /\ (existsb is_quit [KEYDOWN K_SPACE; KEYDOWN K_UP; OTHER] = false ->
      exists d, handle_events [KEYDOWN K_SPACE; KEYDOWN K_UP; OTHER] [(0, 0)] two_cells
                = Returned (with_direction two_cells d, [(0, 0)])
                /\ (is_arrow (direction two_cells) -> is_arrow d)).
Proof.
  apply (keys_only_steer_a_running_game [KEYDOWN K_SPACE; KEYDOWN K_UP; OTHER]
           [(0, 0)] two_cells).
  reflexivity.
Defined.

(** * Running straight *)

Lemma straight_run (n : nat) (t : tape) (g g' : Game) (rest : tape) :
  invariant g ->
  frames (repeat [] n) t g = Returned (g', rest) -> game_over g' = false ->
  direction g' = direction g
  /\ hd (0, 0) (snake g')
     = (fst (hd (0, 0) (snake g)) + Z.of_nat n * (fst (direction g) * CELL_SIZE),
        snd (hd (0, 0) (snake g)) + Z.of_nat n * (snd (direction g) * CELL_SIZE)).
Proof.
  revert t g. induction n as [| n IH]; intros t g I F Over'.
  - cbn in F. inversion F; subst. split; [reflexivity |].
    destruct (hd (0, 0) (snake g')) as [x y]. cbn [fst snd]. f_equal; lia.
  - cbn [repeat frames] in F. unfold frame in F. cbn [handle_events bind] in F.
    destruct (move t g) as [[g1 r1] | | |] eqn:M; cbn [bind] in F; try discriminate.
    pose proof (move_invariant t g g1 r1 I M) as I1.
    destruct (IH r1 g1 I1 F Over') as [Hd Hh].
    pose proof (move_cases t g g1 r1 I M) as D.
    assert (Over1 : game_over g1 = false).
    { destruct (game_over g1) eqn:O1; [| reflexivity].
      assert (Stay : forall m u, frames (repeat [] m) u g1 = Returned (g1, u)).
      { induction m as [| m IHm]; intros u; [reflexivity |].
        cbn [repeat frames]. unfold frame. cbn [handle_events bind].
        rewrite (move_over u g1 O1). cbn [bind]. apply IHm. }
      rewrite Stay in F. inversion F; subst. congruence. }
    assert (Step : direction g1 = direction g /\ hd (0, 0) (snake g1) = new_head g).
    { destruct (game_over g) eqn:O; [destruct D as [-> _]; congruence |].
      destruct (collides g); [destruct D as [-> _]; cbn in Over1; discriminate |].
      destruct (tuple_eqb (new_head g) (food g)).
      - destruct D as [f [_ ->]]. split; reflexivity.
      - destruct D as [-> _]. cbn [with_snake direction snake].
        pose proof (inv_snake g I) as Hs.
        destruct (snake g) as [| h l]; [contradiction | split; reflexivity]. }
    destruct Step as [Ed Eh]. rewrite Hd, Hh, Ed, Eh. split; [reflexivity |].
    unfold new_head, new_head_of.
    destruct (hd (0, 0) (snake g)) as [x y], (direction g) as [dx dy].
    cbn [fst snd]. f_equal; lia.
Qed.

(** No snake runs straight for 29 frames: from any reachable state, 29
    frames without a key end with the game over, whenever each [move] of
    them returns. *)
Theorem straight_run_ends_the_game (t : tape) (g g' : Game) (rest : tape) :
  reachable g ->
  frames (repeat [] 29) t g = Returned (g', rest) -> game_over g' = true.
Proof.
  intros R F. destruct (game_over g') eqn:Over'; [reflexivity | exfalso].
  pose proof (reachable_invariant g R) as I.
  destruct (straight_run 29 t g g' rest I F Over') as [_ Hh].
  pose proof (frames_reachable _ _ _ _ _ R F) as R'.
  pose proof (shp_screen g (reachable_shape g R)) as S.
  pose proof (shp_screen g' (reachable_shape g' R')) as S'.
  pose proof (inv_snake g I) as Hs.
  pose proof (inv_snake g' (reachable_invariant g' R')) as Hs'.
  destruct (snake g) as [| h l]; [contradiction |].
  destruct (snake g') as [| h' l']; [contradiction |].
  inversion S as [| ? ? [Hx Hy] _]; subst. inversion S' as [| ? ? [Hx' Hy'] _]; subst.
  cbn [hd] in Hh. rewrite Hh in Hx', Hy'. cbn [fst snd] in Hx', Hy'.
  unfold WIDTH, HEIGHT, CELL_SIZE in *.
  destruct (inv_arrow g I) as [E | [E | [E | E]]]; rewrite E in *;
    cbn [fst snd UP DOWN LEFT RIGHT] in *; lia.
Qed.

Lemma straight_run_ends_the_game_witness :
  game_over (with_game_over past_right_edge true) = true.
Proof.
  apply (straight_run_ends_the_game [] at_right_edge
           (with_game_over past_right_edge true) []).
  - exact at_right_edge_reachable.
  - vm_compute. reflexivity.
Defined.

(** * The grid that is drawn *)

Lemma py_range_spec (start stop step x : Z) :
  0 < step ->
  (In x (py_range start stop step)
   <-> exists k, 0 <= k /\ x = start + k * step /\ x < stop).
Proof.
  intros Hs. unfold py_range. rewrite in_map_iff.
  assert (Hq : forall k, 0 <= k ->
                         (k < (stop - start + step - 1) / step <-> start + k * step < stop)).
  { intros k Hk.
    pose proof (Z.div_mod (stop - start + step - 1) step ltac:(lia)) as Hdm.
    pose proof (Z.mod_pos_bound (stop - start + step - 1) step Hs) as Hm.
    split; intros Hlt; nia. }
  split.
  - intros [i [Hx Hi]]. apply in_seq in Hi. exists (Z.of_nat i).
    split; [lia | split; [symmetry; exact Hx |]].
    rewrite <- Hx. apply Hq; lia.
  - intros [k [Hk [Hx Hlt]]]. exists (Z.to_nat k).
    rewrite Z2Nat.id by exact Hk. split; [symmetry; exact Hx |].
    apply in_seq. rewrite Hx in Hlt. apply Hq in Hlt; [lia | exact Hk].
Qed.

Lemma grid_lines_of (p : Z * Z) :
  aligned p -> on_screen p ->
  In (Line COLORS_grid (fst p, 0) (fst p, HEIGHT)) draw_grid
  /\ In (Line COLORS_grid (0, snd p) (WIDTH, snd p)) draw_grid.
Proof.
  intros [[a [Ha Ea]] [b [Hb Eb]]] [Hx Hy]. unfold draw_grid. split.
  - apply in_or_app. left. apply in_map_iff. exists (fst p). split; [reflexivity |].
    apply py_range_spec; [reflexivity |]. exists a. lia.
  - apply in_or_app. right. apply in_map_iff. exists (snd p). split; [reflexivity |].
    apply py_range_spec; [reflexivity |]. exists b. lia.
Qed.

Lemma in_margin_on_screen (p : Z * Z) : aligned p -> in_margin p -> on_screen p.
Proof.
  intros [[a [Ha Ea]] [b [Hb Eb]]] [Hc Hr].
  unfold cell_of in Hc, Hr. cbn [fst snd] in Hc, Hr.
  change (W - 2) with 26 in Hc. change (H - 2) with 19 in Hr.
  rewrite Ea in Hc. rewrite Eb in Hr. rewrite Z.div_mul in Hc, Hr by discriminate.
  unfold on_screen, WIDTH, HEIGHT. rewrite Ea, Eb. unfold CELL_SIZE. lia.
Qed.

(** The lines of [draw_grid] pass along every cell of the game: in every
    reachable state, for the food and for each cell of the snake, the
    vertical line through its left edge and the horizontal line through its
    top edge are among the lines drawn. *)
Theorem drawn_grid_carries_every_cell (g : Game) (p : Z * Z) :
  reachable g -> In p (food g :: snake g) ->
  In (Line COLORS_grid (fst p, 0) (fst p, HEIGHT)) draw_grid
  /\ In (Line COLORS_grid (0, snd p) (WIDTH, snd p)) draw_grid.
Proof.
  intros R Hp. pose proof (reachable_invariant g R) as I.
  pose proof (reachable_shape g R) as S.
  destruct (inv_aligned g I) as [Ha Hf].
  destruct Hp as [<- | Hp].
  - apply grid_lines_of; [exact Hf |].
    apply in_margin_on_screen; [exact Hf | exact (shp_food g S)].
  - rewrite Forall_forall in Ha. pose proof (shp_screen g S) as Hs.
    rewrite Forall_forall in Hs. apply grid_lines_of; auto.
Qed.

Lemma drawn_grid_carries_every_cell_witness :
  In (Line COLORS_grid (fst (784, 280), 0) (fst (784, 280), HEIGHT)) draw_grid
  /\ In (Line COLORS_grid (0, snd (784, 280)) (WIDTH, snd (784, 280))) draw_grid.
Proof.
  apply (drawn_grid_carries_every_cell past_right_edge (784, 280)).
  - apply (reach_move at_right_edge [] past_right_edge [] at_right_edge_reachable).
    vm_compute. reflexivity.
  - right. left. reflexivity.
Defined.

(** * The frame rate *)

Lemma tick_rate_table :
  forallb (fun n => match py_int (speed_level n) with
                    | Some r => (10 <=? r) && (r <=? 24)
                                && Bool.eqb (r =? 24) (36 <=? n)%nat
                    | None => false
                    end)
          (seq 0 37) = true.
Proof. vm_compute. reflexivity. Qed.

(** In every reachable state [int(self.current_speed)], the frame rate [run]
    asks of the clock, is an integer from 10 to 24, and it is 24 exactly
    when the score is 36 or more. *)
Theorem tick_rate_is_between_10_and_24 (g : Game) :
  reachable g ->
  exists r, tick_rate g = Some r /\ 10 <= r <= 24 /\ (r = 24 <-> 36 <= score g).
Proof.
  intros R. pose proof (shp_speed g (reachable_shape g R)) as S.
  pose proof (inv_score g (reachable_invariant g R)) as Hs.
  unfold tick_rate. rewrite S, speed_level_cap.
  pose proof tick_rate_table as T. rewrite forallb_forall in T.
  specialize (T (Nat.min (Z.to_nat (score g)) 36) ltac:(apply in_seq; lia)).
  destruct (py_int (speed_level (Nat.min (Z.to_nat (score g)) 36))) as [r |];
    [| discriminate].
  apply andb_true_iff in T. destruct T as [T T3].
  apply andb_true_iff in T. destruct T as [T1 T2].
  apply Z.leb_le in T1, T2. apply Bool.eqb_prop in T3.
  exists r. split; [reflexivity | split; [lia |]].
  rewrite <- Z.eqb_eq, T3, Nat.leb_le. lia.
Qed.

Lemma tick_rate_is_between_10_and_24_witness :
  exists r, tick_rate curled = Some r /\ 10 <= r <= 24 /\ (r = 24 <-> 36 <= score curled).
Proof. apply (tick_rate_is_between_10_and_24 curled). exact curled_reachable. Defined.

(** * Room for the food *)

Lemma distinct_NoDup (l : list (Z * Z)) : distinct l = true -> NoDup l.
Proof.
  induction l as [| p l IH]; [constructor |].
  cbn [distinct]. rewrite andb_true_iff, negb_true_iff, contains_not_In.
  intros [Hp Hl]. constructor; [exact Hp | apply IH; exact Hl].
Qed.

Lemma sampled_cells_NoDup : NoDup sampled_cells.
Proof. apply distinct_NoDup. vm_compute. reflexivity. Qed.

Lemma sampled_cells_are_candidates (p : Z * Z) :
  In p sampled_cells -> exists d, candidate d = p.
Proof.
  unfold sampled_cells. rewrite in_flat_map.
  intros [c [Hc Hp]]. apply in_map_iff in Hc. destruct Hc as [i [<- Hi]].
  apply in_map_iff in Hp. destruct Hp as [r [<- Hr]].
  apply in_map_iff in Hr. destruct Hr as [j [<- Hj]].
  apply in_seq in Hi, Hj. exists (Z.of_nat i - 1, Z.of_nat j - 1).
  unfold candidate, random.randint. cbn [fst snd].
  change (WIDTH / CELL_SIZE - 2 - 1 + 1) with 26.
  change (HEIGHT / CELL_SIZE - 2 - 1 + 1) with 19.
  rewrite !Z.mod_small by lia. f_equal; lia.
Qed.

Lemma some_cell_is_free (s : list (Z * Z)) :
  (length s < 494)%nat -> exists p, In p sampled_cells /\ ~ In p s.
Proof.
  intros Hlen.
  destruct (forallb (contains s) sampled_cells) eqn:F.
  - exfalso. rewrite forallb_forall in F.
    assert (Hincl : incl sampled_cells s).
    { intros p Hp. apply contains_In. apply F. exact Hp. }
    pose proof (NoDup_incl_length sampled_cells_NoDup Hincl) as L.
    change (length sampled_cells) with 494%nat in L. lia.
  - clear Hlen. induction sampled_cells as [| p l IH]; [discriminate |].
    cbn [forallb] in F. destruct (contains s p) eqn:C.
    + cbn [andb] in F. destruct (IH F) as [q [Hq Hn]].
      exists q. split; [right; exact Hq | exact Hn].
    + exists p. split; [left; reflexivity | apply contains_not_In; exact C].
Qed.

Lemma some_draw_is_free (s : list (Z * Z)) :
  (length s < 494)%nat -> exists d, ~ In (candidate d) s.
Proof.
  intros Hlen. destruct (some_cell_is_free s Hlen) as [p [Hp Hfree]].
  destruct (sampled_cells_are_candidates p Hp) as [d <-].
  exists d. exact Hfree.
Qed.

Lemma generate_food_on_free_draw (d : Z * Z) (t : tape) (s : list (Z * Z)) :
  ~ In (candidate d) s -> generate_food (d :: t) s = Returned (candidate d, t).
Proof.
  intros Hfree. rewrite generate_food_step.
  rewrite (proj2 (contains_not_In s (candidate d)) Hfree). reflexivity.
Qed.

(** While the snake has fewer cells than can be sampled, 26 x 19 = 494,
    [generate_food] can return: some draw stands for a free cell, and on a
    tape that starts with it the call returns at once. *)
Theorem food_can_be_placed (s : list (Z * Z)) :
  (length s < 494)%nat ->
  exists d, ~ In (candidate d) s
            /\ forall t, generate_food (d :: t) s = Returned (candidate d, t).
Proof.
  intros Hlen. destruct (some_draw_is_free s Hlen) as [d Hfree].
  exists d. split; [exact Hfree |].
  intros t. apply generate_food_on_free_draw. exact Hfree.
Qed.

Lemma food_can_be_placed_witness :
  exists d, ~ In (candidate d) (snake curled)
            /\ forall t, generate_food (d :: t) (snake curled) = Returned (candidate d, t).
Proof. apply (food_can_be_placed (snake curled)). cbn. lia. Defined.

(** While the score is under 492 a [move] can always return: for some first
    draw it returns whatever follows on the tape, even when it eats. *)
Theorem move_can_return (g : Game) :
  reachable g -> score g < 492 ->
  exists d, forall t, exists g' rest, move (d :: t) g = Returned (g', rest).
Proof.
  intros R Hsc. pose proof (reachable_invariant g R) as I.
  pose proof (shp_length g (reachable_shape g R)) as Hlen.
  destruct (some_draw_is_free (new_head g :: snake g)) as [d Hd];
    [cbn [length]; lia |].
  exists d. intros t. destruct (eats g) eqn:E.
  - eexists. exists t. apply move_returns_when_fed; [exact I | exact E |].
    apply generate_food_on_free_draw. exact Hd.
  - destruct (move_returns_unless_eating (d :: t) g I E) as [g' M].
    exists g', (d :: t). exact M.
Qed.

Lemma move_can_return_witness :
  exists d, forall t, exists g' rest, move (d :: t) before_food = Returned (g', rest).
Proof.
  apply (move_can_return before_food).
  - exact before_food_reachable.
  - reflexivity.
Defined.

(** * A bound on the score *)

Lemma screen_cells_NoDup : NoDup screen_cells.
Proof. apply distinct_NoDup. vm_compute. reflexivity. Qed.

Lemma screen_cells_complete (p : Z * Z) : aligned p -> on_screen p -> In p screen_cells.
Proof.
  destruct p as [x y]. intros [[a [Ha Ea]] [b [Hb Eb]]] [Hx Hy].
  cbn [fst snd] in *. subst x y. unfold WIDTH, HEIGHT, CELL_SIZE in *.
  unfold screen_cells. apply in_flat_map. exists a. split.
  - apply in_map_iff. exists (Z.to_nat a). split; [lia | apply in_seq; lia].
  - apply in_map_iff. exists b. split; [reflexivity |].
    apply in_map_iff. exists (Z.to_nat b). split; [lia | apply in_seq; lia].
Qed.

(** The snake never has more than the 29 x 22 = 638 cells whose corner is on
    the screen, so the score of a reachable state is at most 637. *)
Theorem score_is_at_most_637 (g : Game) :
  reachable g -> (length (snake g) <= 638)%nat /\ score g <= 637.
Proof.
  intros R. pose proof (reachable_shape g R) as S.
  destruct (inv_aligned g (reachable_invariant g R)) as [Ha _].
  assert (Hincl : incl (snake g) screen_cells).
  { intros p Hp. pose proof (shp_screen g S) as Hs.
    rewrite Forall_forall in Ha, Hs. apply screen_cells_complete; auto. }
  pose proof (NoDup_incl_length (shp_nodup g S) Hincl) as L.
  change (length screen_cells) with 638%nat in L.
  pose proof (shp_length g S). lia.
Qed.

Lemma score_is_at_most_637_witness :
  (length (snake curled) <= 638)%nat /\ score curled <= 637.
Proof. apply (score_is_at_most_637 curled). exact curled_reachable. Defined.
